(** * NAUTILUS Navigator: a shallow embedding of [desdeo/mcdm/nautilus_navigator.py]

    The development follows the Python module function by function.

    - Python floats are idealised as exact rationals ([Q]); rounding,
      infinities and NaN are outside the model.
    - Python exceptions are values of [exn], threaded by an error monad.
    - The objects the module creates and assigns to (responses and lists of
      responses) live in an explicit store, threaded by a state monad that
      keeps the store when an exception is raised.
    - The optimisation tool box the module imports ([desdeo.tools], the
      problem type, [numpy.linalg.norm]) is an interface ([Toolbox]); a
      solver is a deterministic function of the problem it is built for. *)

From Stdlib Require Import QArith Lqa.
From stdpp Require Import gmap strings list fin_maps pretty.

Set Default Proof Using "Type".

(** ** Values, dictionaries, exceptions *)

(** What the dictionaries of the module hold: a float, [None] (an undefined
    ideal or nadir component) or a list of floats (solvers may return one
    value per objective wrapped in a list). *)
Inductive value :=
  | VNone
  | VFloat (x : Q)
  | VList (xs : list Q).

Abbreviation dict := (gmap string value).

(** Why [NautilusNavigatorError] was raised: one constructor per [raise]
    statement of the module. *)
Inductive nautilus_reason :=
  | InvalidStepCount (number_of_steps_remaining : Z)
  | EpsilonNotSuccessful (objective_symbol message : string)
  | NadirUndefined
  | NoPreferenceGiven
  | BothPreferencesGiven.

(** [LoopBound] is not a Python exception: the two [while] loops of the
    module are modelled with a decreasing bound, and the theorems below show
    that the bound the model passes is never exhausted. *)
Inductive exn :=
  | NautilusNavigatorError (why : nautilus_reason)
  | KeyError (key : string)
  | IndexError
  | TypeError
  | AttributeError
  | ValueError
  | LoopBound.

Inductive Result (A : Type) :=
  | Ok (a : A)
  | Raise (e : exn).
Arguments Ok {A} a.
Arguments Raise {A} e.

Definition rbind {A B} (m : Result A) (k : A → Result B) : Result B :=
  match m with
  | Ok a => k a
  | Raise e => Raise e
  end.

Declare Scope result_scope.
Delimit Scope result_scope with result.
Notation "'let?' x := m 'in' k" := (rbind m (fun x => k))
  (at level 10, x pattern, m at level 100, k at level 200) : result_scope.
Open Scope result_scope.

(** [d[key]] *)
Definition getitem (d : dict) (key : string) : Result value :=
  match d !! key with
  | Some v => Ok v
  | None => Raise (KeyError key)
  end.

(** [xs[0]] *)
Definition first_item (xs : list Q) : Result value :=
  match xs with
  | x :: _ => Ok (VFloat x)
  | [] => Raise IndexError
  end.

(** [[f x for x in xs]], stopping at the first exception. *)
Fixpoint comprehension {A B} (f : A → Result B) (xs : list A) : Result (list B) :=
  match xs with
  | [] => Ok []
  | x :: xs' =>
      let? y := f x in
      let? ys := comprehension f xs' in
      Ok (y :: ys)
  end.

(** ** The problem *)

Record Objective := {
  symbol : string;
  name : string;
  unit_name : string;
  maximize : bool;
  ideal : option Q;
  nadir : option Q;
}.

Definition of_optional (o : option Q) : value :=
  match o with
  | Some x => VFloat x
  | None => VNone
  end.

(** [SolverResults] of [desdeo.tools.generics]. *)
Record SolverResults := {
  optimal_variables : dict;
  optimal_objectives : dict;
  success : bool;
  message : string;
}.

(** The collaborators of the module that the repository imports from
    elsewhere: the problem type, the scalarisation helpers of
    [desdeo.tools.scalarization], the solver factory and numpy's norm. *)
Class Toolbox := {
  Problem : Type;
  Expr : Type;
  objectives : Problem → list Objective;
  (** [create_epsilon_constraints(problem, objective_symbol, epsilons)] *)
  create_epsilon_constraints : Problem → string → dict → Expr * list Expr;
  (** [create_asf(problem, reference_point, reference_in_aug=True)] *)
  create_asf : Problem → list value → Expr;
  (** the constraint [f"{obj.symbol}_min - {bound}"] *)
  min_minus : string → value → Expr;
  add_scalarization_function : Problem → Expr → string → Problem * string;
  add_lte_constraints : Problem → list Expr → list string → Problem;
  guess_best_solver : Problem → Problem → string → SolverResults;
  (** [np.linalg.norm] on a vector of floats *)
  norm : list Q → Q;
}.

(** A [CreateSolverType]: from a problem to a solver, from a target symbol
    to results. *)
Abbreviation CreateSolverType := (Problem → string → SolverResults).

(** ** Responses and the store *)

Record NAUTILUS_Response := {
  step_number : Z;
  distance_to_front : Q;
  reference_point : option dict;
  navigation_point : dict;
  reachable_solution : option dict;
  reachable_bounds : gmap string dict;
}.

(** [response.reference_point = v] *)
Definition with_reference_point (v : option dict) (r : NAUTILUS_Response)
  : NAUTILUS_Response :=
  {| step_number := step_number r;
     distance_to_front := distance_to_front r;
     reference_point := v;
     navigation_point := navigation_point r;
     reachable_solution := reachable_solution r;
     reachable_bounds := reachable_bounds r |}.

(** Objects are identified by their position in the store; nothing is ever
    freed. A Python list of responses holds references. *)
Abbreviation addr := nat.

Inductive object :=
  | Response (r : NAUTILUS_Response)
  | ListOf (items : list addr).

(** What a call did to the world outside its local variables. *)
Inductive event :=
  | Solve (target : string)
  | New (a : addr) (o : object)
  | SetReferencePoint (a : addr) (v : option dict)
  | Append (l a : addr).

Record store := {
  heap : list object;
  trace : list event;
}.

(** A computation returns or raises, and leaves a store either way. *)
Definition M (A : Type) : Type := store → Result A * store.

Definition ret {A} (a : A) : M A := fun σ => (Ok a, σ).
Definition raise {A} (e : exn) : M A := fun σ => (Raise e, σ).
Definition lift {A} (r : Result A) : M A := fun σ => (r, σ).

Definition bind {A B} (m : M A) (k : A → M B) : M B :=
  fun σ =>
    match m σ with
    | (Ok a, σ') => k a σ'
    | (Raise e, σ') => (Raise e, σ')
    end.

Declare Scope store_scope.
Delimit Scope store_scope with M.
Notation "'let*' x := m 'in' k" := (bind m (fun x => k))
  (at level 10, x pattern, m at level 100, k at level 200) : store_scope.
Notation "m ;; k" := (bind m (fun _ => k))
  (at level 100, k at level 200, right associativity) : store_scope.
Open Scope store_scope.

Definition emit (e : event) (σ : store) : store :=
  {| heap := heap σ; trace := trace σ ++ [e] |}.

(** [solver(target)] *)
Definition call (solver : string → SolverResults) (target : string) : M SolverResults :=
  fun σ => (Ok (solver target), emit (Solve target) σ).

Definition new (o : object) : M addr :=
  fun σ =>
    let a := length (heap σ) in
    (Ok a, {| heap := heap σ ++ [o]; trace := trace σ ++ [New a o] |}).

(** Reading a field of the response behind a reference. *)
Definition response_at (a : addr) : M NAUTILUS_Response :=
  fun σ =>
    match heap σ !! a with
    | Some (Response r) => (Ok r, σ)
    | _ => (Raise AttributeError, σ)
    end.

(** [response.navigation_point], [response.reachable_solution] and
    [response.step_number] *)
Definition get_navigation_point (a : addr) : M dict :=
  let* r := response_at a in ret (navigation_point r).

Definition get_reachable_solution (a : addr) : M (option dict) :=
  let* r := response_at a in ret (reachable_solution r).

Definition get_step_number (a : addr) : M Z :=
  let* r := response_at a in ret (step_number r).

(** [response.reference_point = v] *)
Definition set_reference_point (a : addr) (v : option dict) : M unit :=
  fun σ =>
    match heap σ !! a with
    | Some (Response r) =>
        (Ok (), {| heap := <[a := Response (with_reference_point v r)]> (heap σ);
                   trace := trace σ ++ [SetReferencePoint a v] |})
    | _ => (Raise AttributeError, σ)
    end.

(** [l.append(x)] *)
Definition list_append (l x : addr) : M unit :=
  fun σ =>
    match heap σ !! l with
    | Some (ListOf items) =>
        (Ok (), {| heap := <[l := ListOf (items ++ [x])]> (heap σ);
                   trace := trace σ ++ [Append l x] |})
    | _ => (Raise AttributeError, σ)
    end.

(** [l[-1]] *)
Definition list_last (l : addr) : M addr :=
  fun σ =>
    match heap σ !! l with
    | Some (ListOf items) =>
        match last items with
        | Some x => (Ok x, σ)
        | None => (Raise IndexError, σ)
        end
    | _ => (Raise TypeError, σ)
    end.


Section Navigator.
Context `{Toolbox}.

(** ** Helpers of [desdeo.problem] *)

(** Modelled from the spec: [get_nadir_dict] of [desdeo.problem] is not
    among the sources; the problem accessor gives read access to the nadir
    point, one entry per objective symbol, undefined components being
    [None]. *)
Definition get_nadir_dict (problem : Problem) : dict :=
  foldl (fun d objective => <[symbol objective := of_optional (nadir objective)]> d)
        ∅ (objectives problem).

(** Modelled from the spec: [objective_dict_to_numpy_array] of
    [desdeo.problem] is not among the sources; it lays the values of a
    mapping keyed by objective symbol out in the order of the problem's
    objectives. *)
Definition objective_dict_to_numpy_array (problem : Problem) (objective_dict : dict)
  : Result (list value) :=
  comprehension (fun objective => getitem objective_dict (symbol objective))
                (objectives problem).

(** The dict comprehension [{o.symbol: z[i] for i, o in enumerate(objs)}]:
    a later objective with the same symbol overwrites an earlier one. *)
Fixpoint dict_of_array (objs : list Objective) (i : nat) (z : list value) (acc : dict)
  : Result dict :=
  match objs with
  | [] => Ok acc
  | objective :: objs' =>
      match z !! i with
      | Some v => dict_of_array objs' (S i) z (<[symbol objective := v]> acc)
      | None => Raise IndexError
      end
  end.

(** Modelled from the spec: [numpy_array_to_objective_dict] of
    [desdeo.problem] is not among the sources; the inverse of the above,
    its keys are exactly the objective symbols. *)
Definition numpy_array_to_objective_dict (problem : Problem) (z : list value) : Result dict :=
  dict_of_array (objectives problem) 0 z ∅.

(** ** Arithmetic on arrays *)

Definition as_float (v : value) : Result Q :=
  match v with
  | VFloat x => Ok x
  | _ => Raise TypeError
  end.

(** [c * a] *)
Definition array_scale (c : Q) (a : list value) : Result (list value) :=
  comprehension (fun v => let? x := as_float v in Ok (VFloat (c * x)%Q)) a.

(** [a / c] *)
Definition array_div (a : list value) (c : Q) : Result (list value) :=
  comprehension (fun v => let? x := as_float v in Ok (VFloat (x / c)%Q)) a.

(** [a + b] and [a - b] for two arrays of one shape *)
Fixpoint array_zip (op : Q → Q → Q) (a b : list value) : Result (list value) :=
  match a, b with
  | [], [] => Ok []
  | u :: a', v :: b' =>
      let? x := as_float u in
      let? y := as_float v in
      let? rest := array_zip op a' b' in
      Ok (VFloat (op x y) :: rest)
  | _, _ => Raise ValueError
  end.

Definition array_add := array_zip Qplus.
Definition array_sub := array_zip Qminus.

(** ** [calculate_navigation_point] *)

Definition calculate_navigation_point
    (problem : Problem)
    (previous_navigation_point reachable_objective_vector : dict)
    (number_of_steps_remaining : Z) : Result dict :=
  if (number_of_steps_remaining <=? 0)%Z then
    Raise (NautilusNavigatorError (InvalidStepCount number_of_steps_remaining))
  else
    let? z_prev := objective_dict_to_numpy_array problem previous_navigation_point in
    let? f := objective_dict_to_numpy_array problem reachable_objective_vector in
    let rs := number_of_steps_remaining in
    let? scaled := array_scale (inject_Z (rs - 1) / inject_Z rs)%Q z_prev in
    let? share := array_div f (inject_Z rs) in
    let? z := array_add scaled share in
    numpy_array_to_objective_dict problem z.


(** ** [calculate_distance_to_front] *)

Definition is_none (v : value) : bool :=
  match v with
  | VNone => true
  | _ => false
  end.

(** [np.linalg.norm(a)] *)
Definition array_norm (a : list value) : Result Q :=
  let? xs := comprehension as_float a in
  Ok (norm xs).

Definition calculate_distance_to_front
    (problem : Problem) (navigation_point reachable_objective_vector : dict) : Result Q :=
  let? nadir_point := objective_dict_to_numpy_array problem (get_nadir_dict problem) in
  if existsb is_none nadir_point then
    Raise (NautilusNavigatorError NadirUndefined)
  else
    let? z_nav := objective_dict_to_numpy_array problem navigation_point in
    let? f := objective_dict_to_numpy_array problem reachable_objective_vector in
    let? to_nav := array_sub z_nav nadir_point in
    let? travelled := array_norm to_nav in
    let? to_front := array_sub f nadir_point in
    let? total := array_norm to_front in
    Ok (travelled / total * 100)%Q.

(** ** [solve_reachable_bounds] *)

(** [-1 * v]: on a list Python's repetition by a negative count gives the
    empty list; on [None] it is a type error. *)
Definition negated (v : value) : Result value :=
  match v with
  | VFloat x => Ok (VFloat (inject_Z (-1) * x)%Q)
  | VList _ => Ok (VList [])
  | VNone => Raise TypeError
  end.

(** The comprehension that builds [const_bounds]. *)
Fixpoint const_bounds_of (objs : list Objective) (navigation_point : dict) (acc : dict)
  : Result dict :=
  match objs with
  | [] => Ok acc
  | objective :: objs' =>
      let? v := getitem navigation_point (symbol objective) in
      let? bound := if maximize objective then negated v else Ok v in
      const_bounds_of objs' navigation_point (<[symbol objective := bound]> acc)
  end.

(** [[f"{prefix}{i}" for i in range(1, n + 1)]] *)
Definition numbered (prefix : string) (n : nat) : list string :=
  map (fun i => prefix +:+ pretty i) (seq 1 n).

(** [v[0] if isinstance(v, list) else v] *)
Definition unwrapped (v : value) : Result value :=
  match v with
  | VList xs => first_item xs
  | _ => Ok v
  end.

(** The epsilon-constraint problem of one objective and its target: the
    lines of the loop body before the solver is created. *)
Definition epsilon_problem (problem : Problem) (const_bounds : dict) (objective : Objective)
  : Problem * string :=
  let '(target_expr, const_exprs) :=
    create_epsilon_constraints problem (symbol objective) const_bounds in
  let '(eps_problem, target) := add_scalarization_function problem target_expr "target" in
  let eps_problem :=
    add_lte_constraints eps_problem const_exprs (numbered "eps_" (length const_exprs)) in
  (eps_problem, target).

(** The body of the [for objective in problem.objectives] loop, followed by
    the rest of the loop. *)
Fixpoint bounds_loop
    (problem : Problem) (navigation_point const_bounds : dict)
    (_create_solver : CreateSolverType)
    (objs : list Objective) (lower_bounds upper_bounds : dict) : M (dict * dict) :=
  match objs with
  | [] => ret (lower_bounds, upper_bounds)
  | objective :: objs' =>
      let '(eps_problem, target) := epsilon_problem problem const_bounds objective in
      let solver := _create_solver eps_problem in
      let* res := call solver target in
      if negb (success res) then
        raise (NautilusNavigatorError
                 (EpsilonNotSuccessful (symbol objective) (message res)))
      else
        let* lower_bound := lift (getitem (optimal_objectives res) (symbol objective)) in
        let* lower_bound := lift (unwrapped lower_bound) in
        let* at_nav := lift (getitem navigation_point (symbol objective)) in
        let* upper_bound := lift (unwrapped at_nav) in
        let lower_bounds :=
          <[symbol objective := if negb (maximize objective) then lower_bound else upper_bound]>
            lower_bounds in
        let upper_bounds :=
          <[symbol objective := if negb (maximize objective) then upper_bound else lower_bound]>
            upper_bounds in
        bounds_loop problem navigation_point const_bounds _create_solver objs'
                    lower_bounds upper_bounds
  end.

Definition solver_or_guess (problem : Problem) (create_solver : option CreateSolverType)
  : CreateSolverType :=
  match create_solver with
  | None => guess_best_solver problem
  | Some create => create
  end.

Definition solve_reachable_bounds
    (problem : Problem) (navigation_point : dict)
    (create_solver : option CreateSolverType) : M (dict * dict) :=
  let* const_bounds := lift (const_bounds_of (objectives problem) navigation_point ∅) in
  let _create_solver := solver_or_guess problem create_solver in
  bounds_loop problem navigation_point const_bounds _create_solver
              (objectives problem) ∅ ∅.

(** ** [solve_reachable_solution] *)

(** [v * (-1 if maximize else 1)] *)
Definition signed (v : value) (is_max : bool) : Result value :=
  match v with
  | VFloat x => Ok (VFloat (x * inject_Z (if is_max then -1 else 1))%Q)
  | VList xs => Ok (VList (if is_max then [] else xs))
  | VNone => Raise TypeError
  end.

Definition solve_reachable_solution
    (problem : Problem) (reference_point previous_nav_point : dict)
    (create_solver : option CreateSolverType) : M SolverResults :=
  let _create_solver := solver_or_guess problem create_solver in
  let* reference_point := lift (objective_dict_to_numpy_array problem reference_point) in
  let sf := create_asf problem reference_point in
  let '(problem_w_asf, target) := add_scalarization_function problem sf "asf" in
  let* const_exprs :=
    lift (comprehension
            (fun obj =>
               let? v := getitem previous_nav_point (symbol obj) in
               let? bound := signed v (maximize obj) in
               Ok (min_minus (symbol obj) bound))
            (objectives problem)) in
  let problem_w_asf :=
    add_lte_constraints problem_w_asf const_exprs (numbered "const_" (length const_exprs)) in
  let solver := _create_solver problem_w_asf in
  call solver target.

(** ** [navigator_init], [navigator_step], [navigator_all_steps] *)

Definition bounds_dict (lower_bounds upper_bounds : dict) : gmap string dict :=
  <["upper_bounds" := upper_bounds]> (<["lower_bounds" := lower_bounds]> ∅).

Definition navigator_init (problem : Problem) (create_solver : option CreateSolverType)
  : M addr :=
  let nav_point := get_nadir_dict problem in
  let* (lower_bounds, upper_bounds) := solve_reachable_bounds problem nav_point create_solver in
  new (Response {|
    distance_to_front := 0;
    navigation_point := nav_point;
    reachable_bounds := bounds_dict lower_bounds upper_bounds;
    reachable_solution := None;
    reference_point := None;
    step_number := 0 |}).

Definition navigator_step
    (problem : Problem) (steps_remaining step_number : Z) (nav_point : dict)
    (create_solver : option CreateSolverType)
    (reference_point reachable_solution : option dict) : M addr :=
  match reference_point, reachable_solution with
  | None, None => raise (NautilusNavigatorError NoPreferenceGiven)
  | Some _, Some _ => raise (NautilusNavigatorError BothPreferencesGiven)
  | _, _ =>
      let* reachable_point :=
        match reference_point with
        | Some given =>
            let* opt_result := solve_reachable_solution problem given nav_point create_solver in
            ret (optimal_objectives opt_result)
        | None =>
            match reachable_solution with
            | Some known => ret known
            | None => raise TypeError
            end
        end in
      let* new_nav_point :=
        lift (calculate_navigation_point problem nav_point reachable_point steps_remaining) in
      let* (lower_bounds, upper_bounds) :=
        solve_reachable_bounds problem new_nav_point create_solver in
      let* distance :=
        lift (calculate_distance_to_front problem new_nav_point reachable_point) in
      new (Response {|
        step_number := step_number;
        distance_to_front := distance;
        navigation_point := new_nav_point;
        reachable_solution := Some reachable_point;
        reference_point := reference_point;
        reachable_bounds := bounds_dict lower_bounds upper_bounds |})
  end.

(** The [while steps_remaining > 0] loop. The local [reachable_solution]
    starts as the class [dict] in the source, a placeholder that the first
    iteration never reads; it is [None] here. *)
Fixpoint all_steps_loop
    (bound : nat) (problem : Problem) (reference_point : dict)
    (create_solver : option CreateSolverType) (responses : addr)
    (steps_remaining step_number : Z) (nav_point : dict)
    (first_iteration : bool) (reachable_solution : option dict) : M unit :=
  if (0 <? steps_remaining)%Z then
    match bound with
    | O => raise LoopBound
    | S bound' =>
        let* response :=
          if first_iteration then
            navigator_step problem steps_remaining step_number nav_point create_solver
                           (Some reference_point) None
          else
            navigator_step problem steps_remaining step_number nav_point create_solver
                           None reachable_solution in
        set_reference_point response (Some reference_point);;
        list_append responses response;;
        let* reachable_solution := get_reachable_solution response in
        let* nav_point := get_navigation_point response in
        all_steps_loop bound' problem reference_point create_solver responses
                       (steps_remaining - 1) (step_number + 1)
                       nav_point false reachable_solution
    end
  else ret ().

Definition navigator_all_steps
    (problem : Problem) (steps_remaining : Z) (reference_point : dict)
    (previous_responses : addr) (create_solver : option CreateSolverType) : M addr :=
  let* responses := new (ListOf []) in
  let* latest := list_last previous_responses in
  let* nav_point := get_navigation_point latest in
  let* latest := list_last previous_responses in
  let* latest_step := get_step_number latest in
  let step_number := (latest_step + 1)%Z in
  all_steps_loop (Z.to_nat steps_remaining) problem reference_point create_solver responses
                 steps_remaining step_number nav_point true None;;
  ret responses.

End Navigator.

(** ** [step_back_index], [get_current_path] *)

(** [l[i]] for a Python integer [i]: negative indices count from the end. *)
Definition py_index {A} (l : list A) (i : Z) : Result A :=
  let n := Z.of_nat (length l) in
  let position := if (i <? 0)%Z then (n + i)%Z else i in
  if (position <? 0)%Z then Raise IndexError
  else match l !! Z.to_nat position with
       | Some x => Ok x
       | None => Raise IndexError
       end.

(** [[i for i, response in enumerate(responses) if response.step_number == step_number]] *)
Fixpoint indices_of_step (responses : list NAUTILUS_Response) (i : Z) (wanted : Z) : list Z :=
  match responses with
  | [] => []
  | response :: rest =>
      if (step_number response =? wanted)%Z
      then i :: indices_of_step rest (i + 1) wanted
      else indices_of_step rest (i + 1) wanted
  end.

Definition step_back_index (responses : list NAUTILUS_Response) (step_number : Z) : Result Z :=
  let relevant_indices := indices_of_step responses 0 step_number in
  py_index relevant_indices (-1).

(** The inner [while not found_step] loop. *)
Fixpoint find_loop
    (bound : nat) (all_responses : list NAUTILUS_Response) (total_steps : Z)
    (current_index : Z) (path : list Z) (found_step : bool) : Result (Z * list Z) :=
  if negb found_step then
    match bound with
    | O => Raise LoopBound
    | S bound' =>
        let current_index := (current_index - 1)%Z in
        let? response := py_index all_responses current_index in
        if (step_number response =? total_steps)%Z then
          find_loop bound' all_responses total_steps current_index
                    (path ++ [current_index]) true
        else
          find_loop bound' all_responses total_steps current_index path false
    end
  else Ok (current_index, path).

(** The outer [while total_steps >= 0] loop. *)
Fixpoint path_loop
    (bound : nat) (all_responses : list NAUTILUS_Response) (total_steps : Z)
    (current_index : Z) (path : list Z) : Result (list Z) :=
  if (0 <=? total_steps)%Z then
    match bound with
    | O => Raise LoopBound
    | S bound' =>
        let? (current_index, path) :=
          find_loop (2 * length all_responses + 2) all_responses total_steps
                    current_index path false in
        path_loop bound' all_responses (total_steps - 1) current_index path
    end
  else Ok path.

Definition get_current_path (all_responses : list NAUTILUS_Response) : Result (list Z) :=
  let? latest := py_index all_responses (-1) in
  let total_steps := step_number latest in
  let current_index := (Z.of_nat (length all_responses) - 1)%Z in
  let path := [current_index] in
  let total_steps := (total_steps - 1)%Z in
  let? path := path_loop (Z.to_nat (total_steps + 1)) all_responses total_steps
                         current_index path in
  Ok (reverse path).

(** ** Vocabulary of the statements *)

(** A history is chained when every entry with a positive step number comes
    after an entry with the step number before it: what appending the
    responses of steps taken from an earlier entry produces. *)
Definition chained (l : list NAUTILUS_Response) : Prop :=
  ∀ (c : nat) r,
    l !! c = Some r → (0 < step_number r)%Z →
    ∃ (c' : nat) r', (c' < c)%nat ∧ l !! c' = Some r'
                     ∧ step_number r' = (step_number r - 1)%Z.

(** [walk l t p]: the indices [p] name entries with step numbers [t],
    [t + 1], ... and each index is the nearest one before its successor
    whose entry has the wanted step number. *)
Inductive walk (l : list NAUTILUS_Response) : Z → list nat → Prop :=
  | walk_end c r :
      l !! c = Some r → walk l (step_number r) [c]
  | walk_back c c' r t p :
      walk l (t + 1) (c' :: p) →
      l !! c = Some r → step_number r = t → (c < c')%nat →
      (∀ (j : nat) r', (c < j < c')%nat → l !! j = Some r' → step_number r' ≠ t) →
      walk l t (c :: c' :: p).

(** The float a mapping holds at a key, 0 when it holds none. *)
Definition float_at (d : dict) (key : string) : Q :=
  match d !! key with
  | Some (VFloat x) => x
  | _ => 0%Q
  end.

(** Every objective of the problem has a float in [d]. *)
Definition numeric_on (objs : list Objective) (d : dict) : Prop :=
  ∀ objective, objective ∈ objs → ∃ x, d !! symbol objective = Some (VFloat x).





(** [d[key]], unwrapped when it is a list. *)
Definition scalar_at (d : dict) (key : string) : Result value :=
  let? v := getitem d key in unwrapped v.

Section SolverVocabulary.
Context `{Toolbox}.

(** What the solver built for one objective's epsilon-constraint problem
    answers. *)
Definition epsilon_result
    (problem : Problem) (const_bounds : dict) (create : CreateSolverType)
    (objective : Objective) : SolverResults :=
  let '(eps_problem, target) := epsilon_problem problem const_bounds objective in
  create eps_problem target.

End SolverVocabulary.

(** A computation is quiet when, from any store, it gives the same outcome
    and only calls solvers: no object is created or assigned to. *)
Definition quiet {A} (m : M A) (outcome : Result A) (targets : list string) : Prop :=
  ∀ σ, m σ = (outcome, {| heap := heap σ; trace := trace σ ++ map Solve targets |}).

(** A computation creates the response [r] when, from any store, it calls
    solvers, then allocates [r] at the next free address and returns that
    address. *)
Definition creates (m : M addr) (r : NAUTILUS_Response) (targets : list string) : Prop :=
  ∀ σ, m σ = (Ok (length (heap σ)),
              {| heap := heap σ ++ [Response r];
                 trace := trace σ ++ map Solve targets
                          ++ [New (length (heap σ)) (Response r)] |}).

(** The responses behind the references of the list at address [l]. *)
Definition responses_at (σ : store) (l : addr) : option (list NAUTILUS_Response) :=
  match heap σ !! l with
  | Some (ListOf items) =>
      mapM (fun a => match heap σ !! a with
                     | Some (Response r) => Some r
                     | _ => None
                     end) items
  | _ => None
  end.

(** An outcome is genuine when it is a return or a Python exception, not
    the exhaustion of a loop bound of the model. *)
Definition genuine {A} (outcome : Result A) : Prop :=
  match outcome with
  | Raise LoopBound => False
  | _ => True
  end.

(** A quiet computation with a genuine outcome. *)
Definition is_quiet {A} (m : M A) : Prop :=
  ∃ outcome targets, quiet m outcome targets ∧ genuine outcome.

(** A computation that either creates one response or raises a Python
    exception, whatever the store. *)
Definition settles (m : M addr) : Prop :=
  (∃ r targets, creates m r targets)
  ∨ (∃ e targets, quiet m (Raise e) targets ∧ e ≠ LoopBound).

Section StepsVocabulary.
Context `{Toolbox}.
Context (problem : Problem) (reference_point : dict) (create_solver : option CreateSolverType).

(** The call of [navigator_step] that one iteration of the loop of
    [navigator_all_steps] makes. *)
Definition iteration_call
    (steps_remaining step_number : Z) (nav_point : dict)
    (first_iteration : bool) (reachable_solution : option dict) : M addr :=
  if first_iteration then
    navigator_step problem steps_remaining step_number nav_point create_solver
                   (Some reference_point) None
  else
    navigator_step problem steps_remaining step_number nav_point create_solver
                   None reachable_solution.

(** [produced k n nav first sol news]: the loop entered with [k] steps
    remaining, step number [n], navigation point [nav] and so on leaves the
    responses [news] in the list it fills: each is the response that
    [navigator_step] created for the iteration, with its reference point
    overwritten, and the next iteration starts from it. *)
Inductive produced
  : Z → Z → dict → bool → option dict → list NAUTILUS_Response → Prop :=
  | produced_none k n nav first sol :
      (k ≤ 0)%Z → produced k n nav first sol []
  | produced_step k n nav first sol r targets rest :
      (0 < k)%Z →
      creates (iteration_call k n nav first sol) r targets →
      produced (k - 1) (n + 1) (navigation_point r) false (reachable_solution r) rest →
      produced k n nav first sol (with_reference_point (Some reference_point) r :: rest).

End StepsVocabulary.


(** Every response object that was created is, in the final store, as it
    was when it was created. *)
Definition kept_as_created (σ : store) : Prop :=
  Forall (fun e => match e with
                   | New a (Response r) => heap σ !! a = Some (Response r)
                   | _ => True
                   end)
         (trace σ).

(** The targets of the solver calls a trace records, in order. *)
Definition solve_targets (t : list event) : list string :=
  omap (fun e => match e with Solve target => Some target | _ => None end) t.

(** The mapping has an entry, whatever it holds, for every objective. *)
Definition keyed_on (objs : list Objective) (d : dict) : Prop :=
  ∀ objective, objective ∈ objs → is_Some (d !! symbol objective).

(** The mapping has an entry other than [None] for every objective. *)
Definition defined_on (objs : list Objective) (d : dict) : Prop :=
  ∀ objective, objective ∈ objs → ∃ v, d !! symbol objective = Some v ∧ v ≠ VNone.

(** A response is anchored when its navigation point lies on the worse
    side of its reachable bounds: at every objective the value of the
    navigation point is the upper bound if the objective is minimised and
    the lower bound if it is maximised. *)
Definition anchored (objs : list Objective) (r : NAUTILUS_Response) : Prop :=
  ∃ lower_bounds upper_bounds,
    reachable_bounds r = bounds_dict lower_bounds upper_bounds
    ∧ ∀ objective, objective ∈ objs →
        ∃ v, scalar_at (navigation_point r) (symbol objective) = Ok v
             ∧ (if maximize objective then lower_bounds else upper_bounds)
                 !! symbol objective = Some v.

(** ** Concrete data for the examples *)

(** A history entry of which only the step number matters. *)
Definition entry (n : Z) : NAUTILUS_Response :=
  {| step_number := n;
     distance_to_front := 0;
     reference_point := None;
     navigation_point := ∅;
     reachable_solution := None;
     reachable_bounds := ∅ |}.

(** A history with two branches: steps 0, 1, 2, then back to step 0 and
    on to steps 1, 2 again. *)
Definition branched_history : list NAUTILUS_Response := map entry [0; 1; 2; 1; 2]%Z.

(** A stand-in for the tool box, enough to run the module on small
    problems: a problem is its list of objectives, the scalarisation helpers
    only name what they are asked to build, and the norm is the Euclidean
    one wherever the sum of squares has a rational root. *)
Definition rational_norm (xs : list Q) : Q :=
  let s := Qred (fold_right (fun x acc => x * x + acc) 0 xs)%Q in
  (Z.sqrt (Qnum s * Zpos (Qden s)) # Qden s)%Q.

Definition no_answer : SolverResults :=
  {| optimal_variables := ∅; optimal_objectives := ∅;
     success := false; message := "no solver" |}.

#[export] Instance small_toolbox : Toolbox := {|
  Problem := list Objective;
  Expr := string;
  objectives := fun problem => problem;
  create_epsilon_constraints := fun _ objective_symbol _ => (objective_symbol +:+ "_min", []);
  create_asf := fun _ _ => "asf";
  min_minus := fun objective_symbol _ => objective_symbol +:+ "_min - bound";
  add_scalarization_function := fun problem _ name => (problem, name);
  add_lte_constraints := fun problem _ _ => problem;
  guess_best_solver := fun _ _ _ => no_answer;
  norm := rational_norm;
|}.

(** A solver that succeeds with one fixed objective vector. *)
Definition answering (found : dict) : @Problem small_toolbox → string → SolverResults :=
  fun _ _ =>
    {| optimal_variables := ∅; optimal_objectives := found;
       success := true; message := "optimal" |}.

Definition minimised (s : string) (worst : option Q) : Objective :=
  {| symbol := s; name := s; unit_name := "-"; maximize := false;
     ideal := Some 0%Q; nadir := worst |}.

(** Two objectives to minimise that do not conflict, [f_1 = x] and
    [f_2 = y] on the box 0 <= x <= 3, 0 <= y <= 4: every epsilon-constraint
    problem and every projection is solved by the origin. *)
Definition box_problem : @Problem small_toolbox :=
  [minimised "f_1" (Some 3%Q); minimised "f_2" (Some 4%Q)].

Definition origin : dict := <["f_2" := VFloat 0]> (<["f_1" := VFloat 0]> ∅).
Definition corner : dict := <["f_2" := VFloat 4]> (<["f_1" := VFloat 3]> ∅).
Definition wish : dict := <["f_2" := VFloat 1]> (<["f_1" := VFloat 1]> ∅).

(** The response of the initialisation of the box problem, and a store
    that holds it together with the caller's history, a list at address 1
    with that single entry. *)
Definition box_start : NAUTILUS_Response :=
  {| step_number := 0;
     distance_to_front := 0;
     reference_point := None;
     navigation_point := corner;
     reachable_solution := None;
     reachable_bounds := bounds_dict origin corner |}.

Definition box_store : store :=
  {| heap := [Response box_start; ListOf [0%nat]]; trace := [] |}.

(** One objective to minimise, [f_1 = x] on 0 <= x <= 1, whose nadir value
    has not been computed. Its minimum is 0 whatever the bounds on the
    other objectives, there being none. *)
Definition lone_problem : @Problem small_toolbox := [minimised "f_1" None].

Definition lone_optimum : dict := <["f_1" := VFloat 0]> ∅.

(** A history with a hole: steps 0 and 2, nothing for step 1. *)
Definition holed_history : list NAUTILUS_Response := map entry [0; 2]%Z.

(** A history in which every step number from 0 to 3 occurs, but not in an
    order that stepping back and forth produces. *)
Definition shuffled_history : list NAUTILUS_Response := map entry [2; 3; 1; 0; 3]%Z.

(** Steps 0, 1, 2, then back to step 0 for one step, then back to the entry
    of step 2 for one more step. *)
Definition resumed_history : list NAUTILUS_Response := map entry [0; 1; 2; 1; 3]%Z.

Definition empty_store : store := {| heap := []; trace := [] |}.

Definition lone_start : dict := <["f_1" := VFloat 1]> ∅.

(** Another caller: a longer history, at address 1, of which the last entry
    is again the initial response of the box problem. *)
Definition long_store : store :=
  {| heap := [Response (entry 7); ListOf [0; 2]%nat; Response box_start]; trace := [] |}.

(** A second stand-in for the tool box, in which an augmented problem
    remembers the expressions it was given, so that a solver can tell the
    sub-problems of different objectives apart. *)
Definition tagged_toolbox : Toolbox := {|
  Problem := list Objective * list string;
  Expr := string;
  objectives := fun problem => problem.1;
  create_epsilon_constraints := fun _ objective_symbol _ => (objective_symbol +:+ "_min", []);
  create_asf := fun _ _ => "asf";
  min_minus := fun objective_symbol _ => objective_symbol +:+ "_min - bound";
  add_scalarization_function := fun problem expr name => ((problem.1, expr :: problem.2), name);
  add_lte_constraints := fun problem _ _ => problem;
  guess_best_solver := fun _ _ _ => no_answer;
  norm := rational_norm;
|}.

Definition tagged_box : @Problem tagged_toolbox := (box_problem, []).

(** A solver that finds the origin, except for the sub-problem whose
    target expression is [unsolved], where it gives up. *)
Definition giving_up_on (unsolved : string)
  : @Problem tagged_toolbox → string → SolverResults :=
  fun problem _ =>
    match problem.2 with
    | expr :: _ =>
        if String.eqb expr unsolved then
          {| optimal_variables := ∅; optimal_objectives := ∅;
             success := false; message := "infeasible" |}
        else
          {| optimal_variables := ∅; optimal_objectives := origin;
             success := true; message := "optimal" |}
    | [] => no_answer
    end.

(** A problem with one objective to minimise and one to maximise. *)
Definition mixed_problem : @Problem small_toolbox :=
  [minimised "cost" (Some 9%Q);
   {| symbol := "gain"; name := "gain"; unit_name := "-"; maximize := true;
      ideal := Some 5%Q; nadir := Some 1%Q |}].

Definition mixed_point : dict := <["gain" := VFloat 1]> (<["cost" := VFloat 9]> ∅).

(** A navigation point of the box problem that lacks the second
    objective. *)
Definition half_point : dict := <["f_1" := VFloat 3]> ∅.

(** A caller with an empty history, at address 0. *)
Definition bare_store : store := {| heap := [ListOf []]; trace := [] |}.

(** * Properties *)

Section Properties.
Context `{Toolbox}.

(** *** The recurrence, objective by objective *)

Lemma numeric_on_cons o objs d :
  numeric_on (o :: objs) d →
  d !! symbol o = Some (VFloat (float_at d (symbol o))) ∧ numeric_on objs d.
Proof.
  intros Hn. split.
  - destruct (Hn o) as [x Hx]; [left|]. unfold float_at. by rewrite Hx.
  - intros o' Ho'. apply Hn. by right.
Qed.











End Properties.

(** ** The history: [step_back_index] and [get_current_path] *)

Section History.
Implicit Types (l responses : list NAUTILUS_Response) (i t : Z).

Lemma py_index_last {A} (xs : list A) :
  py_index xs (-1) = match last xs with Some x => Ok x | None => Raise IndexError end.
Proof.
  unfold py_index. cbn [Z.ltb Z.compare].
  destruct xs as [|x xs] using rev_ind; [done|].
  rewrite last_snoc, length_app. cbn [length].
  destruct (Z.ltb_spec (Z.of_nat (length xs + 1) + -1) 0) as [?|_]; [lia|].
  replace (Z.to_nat (Z.of_nat (length xs + 1) + -1)) with (length xs) by lia.
  by rewrite list_lookup_middle.
Qed.

Lemma py_index_nat {A} (xs : list A) (k : nat) :
  py_index xs (Z.of_nat k)
  = match xs !! k with Some x => Ok x | None => Raise IndexError end.
Proof.
  unfold py_index.
  destruct (Z.ltb_spec (Z.of_nat k) 0) as [?|_]; [lia|].
  destruct (Z.ltb_spec (Z.of_nat k) 0) as [?|_]; [lia|].
  by rewrite Nat2Z.id.
Qed.

Lemma py_index_elem {A} (xs : list A) (i : Z) (x : A) :
  py_index xs i = Ok x → x ∈ xs.
Proof.
  unfold py_index. intros Hi.
  destruct (_ <? 0)%Z in Hi; [done|].
  destruct (xs !! _) eqn:E in Hi; [|done].
  injection Hi as ->. by eapply list_elem_of_lookup_2.
Qed.

Lemma py_index_below {A} (xs : list A) (i : Z) :
  (i < - Z.of_nat (length xs))%Z → py_index xs i = Raise IndexError.
Proof.
  intros Hi. unfold py_index.
  destruct (Z.ltb_spec i 0) as [_|?]; [|lia].
  by destruct (Z.ltb_spec (Z.of_nat (length xs) + i) 0) as [_|?]; [|lia].
Qed.

Lemma py_index_defined {A} (xs : list A) (i : Z) :
  (- Z.of_nat (length xs) ≤ i < Z.of_nat (length xs))%Z → ∃ x, py_index xs i = Ok x.
Proof.
  intros Hi. unfold py_index.
  set (position := if (i <? 0)%Z then _ else _).
  assert (0 ≤ position < Z.of_nat (length xs))%Z as Hpos.
  { subst position. destruct (Z.ltb_spec i 0); lia. }
  destruct (Z.ltb_spec position 0) as [?|_]; [lia|].
  destruct (lookup_lt_is_Some_2 xs (Z.to_nat position)) as [x Hx]; [lia|].
  rewrite Hx. eauto.
Qed.

(** *** [step_back_index] *)

Lemma indices_of_step_snoc responses r i wanted :
  indices_of_step (responses ++ [r]) i wanted
  = indices_of_step responses i wanted
    ++ (if (step_number r =? wanted)%Z then [(i + Z.of_nat (length responses))%Z] else []).
Proof.
  revert i. induction responses as [|r' responses IH]; intros i; cbn [app indices_of_step length].
  - rewrite Z.add_0_r. by destruct (_ =? _)%Z.
  - rewrite IH. replace (i + 1 + Z.of_nat (length responses))%Z
      with (i + Z.of_nat (S (length responses)))%Z by lia.
    by destruct (step_number r' =? wanted)%Z.
Qed.

(** The last index collected for a step number is the position of the
    latest entry that carries it. *)
Lemma indices_of_step_last responses wanted :
  (∃ r, r ∈ responses ∧ step_number r = wanted) →
  ∃ (j : nat) r,
    last (indices_of_step responses 0 wanted) = Some (Z.of_nat j)
    ∧ responses !! j = Some r ∧ step_number r = wanted
    ∧ ∀ (j' : nat) r', (j < j')%nat → responses !! j' = Some r' → step_number r' ≠ wanted.
Proof.
  induction responses as [|x responses IH] using rev_ind; intros (r & Hr & Hstep).
  - by apply elem_of_nil in Hr.
  - rewrite indices_of_step_snoc.
    destruct (Z.eqb_spec (step_number x) wanted) as [Hx|Hx].
    + exists (length responses), x. rewrite last_snoc, Z.add_0_l.
      split; [done|]. split; [by rewrite list_lookup_middle|]. split; [done|].
      intros j' r' Hlt Hj'. apply lookup_lt_Some in Hj'. rewrite length_app in Hj'.
      cbn in Hj'. lia.
    + rewrite app_nil_r.
      destruct IH as (j & r0 & Hlast & Hj & Hr0 & Hlater).
      { exists r. split; [|done]. apply elem_of_app in Hr as [Hr|Hr]; [done|].
        apply list_elem_of_singleton in Hr. congruence. }
      exists j, r0. split; [done|]. split; [by apply lookup_app_l_Some|]. split; [done|].
      intros j' r' Hlt Hj'.
      destruct (decide (j' < length responses)%nat) as [Hin|Hout].
      * rewrite lookup_app_l in Hj' by done. by eapply Hlater.
      * apply lookup_lt_Some in Hj' as Hlen. rewrite length_app in Hlen. cbn in Hlen.
        assert (j' = length responses) as -> by lia.
        rewrite list_lookup_middle in Hj' by done. congruence.
Qed.

(** C5. When some entry of the history carries the queried step number,
    [step_back_index] returns the index of the latest such entry: the entry
    at that index carries the step number and no later entry does. With step
    numbers 0, 1, 2, 1, 2 it returns 3 for step 1 and 4 for step 2. *)
Theorem step_back_index_latest_wins :
  (∀ responses wanted,
     (∃ r, r ∈ responses ∧ step_number r = wanted) →
     ∃ (j : nat) r,
       step_back_index responses wanted = Ok (Z.of_nat j)
       ∧ responses !! j = Some r ∧ step_number r = wanted
       ∧ ∀ (j' : nat) r', (j < j')%nat → responses !! j' = Some r' →
                          step_number r' ≠ wanted)
  ∧ (∀ responses,
       map step_number responses = [0; 1; 2; 1; 2]%Z →
       step_back_index responses 1 = Ok 3%Z ∧ step_back_index responses 2 = Ok 4%Z).
Proof.
  split.
  - intros responses wanted Hsome.
    destruct (indices_of_step_last responses wanted Hsome) as (j & r & Hlast & Hrest).
    exists j, r. split; [|done].
    unfold step_back_index. by rewrite py_index_last, Hlast.
  - intros responses Hsteps.
    do 6 (destruct responses as [|[] responses]; try discriminate Hsteps).
    injection Hsteps as -> -> -> -> ->. by split.
Qed.

(** *** [get_current_path] *)

Lemma find_loop_found bound l t i path :
  find_loop bound l t i path true = Ok (i, path).
Proof. by destruct bound. Qed.

(** One backward search, given enough iterations: either it runs off the
    front of the list, wrap-around included, or it stops at the first index
    below [i] whose entry carries the wanted step number. *)
Lemma find_loop_outcome l t : ∀ bound i path,
  (i ≤ Z.of_nat (length l))%Z →
  (i + Z.of_nat (length l) + 1 ≤ Z.of_nat bound)%Z → (0 < bound)%nat →
  (find_loop bound l t i path false = Raise IndexError
   ∧ ∀ j r', (0 ≤ j < i)%Z → py_index l j = Ok r' → step_number r' ≠ t)
  ∨ ∃ i' r,
      find_loop bound l t i path false = Ok (i', path ++ [i'])
      ∧ (- Z.of_nat (length l) ≤ i' < i)%Z
      ∧ py_index l i' = Ok r ∧ step_number r = t
      ∧ ∀ j r', (i' < j < i)%Z → py_index l j = Ok r' → step_number r' ≠ t.
Proof.
  induction bound as [|bound IH]; intros i path Hi Hbound Hpos; [lia|].
  cbn [find_loop negb].
    destruct (Z.lt_ge_cases (i - 1) (- Z.of_nat (length l))) as [Hlow|Hlow].
  { left. rewrite py_index_below by done. split; [done|]. lia. }
  destruct (py_index_defined l (i - 1)) as [r Hr]; [lia|].
  rewrite Hr. cbn [rbind].
  destruct (Z.eqb_spec (step_number r) t) as [Hstep|Hstep].
  - right. exists (i - 1)%Z, r. rewrite find_loop_found.
    split; [done|]. split; [lia|]. split; [done|]. split; [done|]. lia.
  - destruct (IH (i - 1)%Z path) as [Hraise|(i' & r' & Hrun & Hrange & Hat & Hst & Hbetween)];
      [lia|lia|lia| |].
    { left. split; [apply Hraise|]. intros j r' Hj Hjr.
      destruct (decide (j = i - 1)%Z) as [->|Hne]; [congruence|].
      apply (proj2 Hraise j r'); [lia|done]. }
    right. exists i', r'. split; [done|]. split; [lia|]. split; [done|]. split; [done|].
    intros j r'' Hj Hjr.
    destruct (decide (j = i - 1)%Z) as [->|Hne]; [congruence|].
    apply (Hbetween j r''); [lia|done].
Qed.

(** The walk fails as soon as a step number it needs is missing. *)
Lemma path_loop_gap l t : ∀ bound total i path,
  (i ≤ Z.of_nat (length l))%Z →
  (total + 1 ≤ Z.of_nat bound)%Z →
  (0 ≤ t ≤ total)%Z →
  (∀ r, r ∈ l → step_number r ≠ t) →
  path_loop bound l total i path = Raise IndexError.
Proof.
  induction bound as [|bound IH]; intros total i path Hi Hbound Ht Habsent; [lia|].
  cbn [path_loop]. destruct (Z.leb_spec 0 total) as [_|?]; [|lia].
  destruct (find_loop_outcome l total (2 * length l + 2) i path)
    as [[Hraise _]|(i' & r & Hrun & Hrange & Hat & Hst & _)]; [lia|lia|lia| |].
  - by rewrite Hraise.
  - rewrite Hrun. cbn [rbind].
    destruct (decide (t = total)) as [->|Hne].
    + apply py_index_elem in Hat. by apply Habsent in Hat.
    + apply IH; [lia|lia|lia|done].
Qed.

(** C4. When some step number between 0 and the step number of the last
    entry has no entry in the history, [get_current_path] does not return a
    path: the backward search leaves the list and the lookup fails (Python's
    [IndexError]). *)
Theorem get_current_path_gap l latest t :
  last l = Some latest →
  (0 ≤ t ≤ step_number latest)%Z →
  (∀ r, r ∈ l → step_number r ≠ t) →
  get_current_path l = Raise IndexError.
Proof.
  intros Hlast Ht Habsent.
  assert (t ≠ step_number latest) as Hne.
  { intros ->. eapply Habsent; [|done]. by apply last_Some_elem_of. }
  unfold get_current_path. rewrite py_index_last, Hlast. cbn [rbind].
  rewrite (path_loop_gap l t); [done|lia|lia|lia|done].
Qed.

Lemma walk_steps l t p :
  walk l t p →
  ∀ (k c : nat), p !! k = Some c → ∃ r, l !! c = Some r ∧ step_number r = (t + Z.of_nat k)%Z.
Proof.
  induction 1 as [c r Hc|c c' r t p _ IH Hc Hstep _ _]; intros k c0 Hk.
  - destruct k as [|k]; [|done]. injection Hk as <-. exists r. split; [done|]. lia.
  - destruct k as [|k].
    + injection Hk as <-. exists r. split; [done|]. lia.
    + destruct (IH k c0 Hk) as (r0 & Hr0 & Hs). exists r0. split; [done|]. lia.
Qed.

(** On a chained history the walk never leaves the list: every search stops
    at an index of the list, and the loop extends the path down to step 0. *)
Lemma path_loop_chained l : chained l →
  ∀ bound total (c : nat) r p,
    (-1 ≤ total)%Z → (total + 1 ≤ Z.of_nat bound)%Z →
    l !! c = Some r → step_number r = (total + 1)%Z →
    walk l (total + 1) (c :: p) →
    ∃ p0,
      path_loop bound l total (Z.of_nat c) (Z.of_nat <$> reverse (c :: p))
      = Ok (Z.of_nat <$> reverse (p0 ++ c :: p))
      ∧ walk l 0 (p0 ++ c :: p)
      ∧ length p0 = Z.to_nat (total + 1).
Proof.
  intros Hchained.
  induction bound as [|bound IH]; intros total c r p Hlow Hbound Hc Hstep Hwalk.
  - assert (total = -1)%Z as -> by lia. exists []. by cbn.
  - cbn [path_loop]. destruct (Z.leb_spec 0 total) as [Hge|Hlt].
    2:{ assert (total = -1)%Z as -> by lia. exists []. by cbn. }
    apply lookup_lt_Some in Hc as Hlen.
    destruct (Hchained c r Hc) as (c1 & r1 & Hc1 & Hr1 & Hs1); [lia|].
    destruct (find_loop_outcome l total (2 * length l + 2) (Z.of_nat c)
                (Z.of_nat <$> reverse (c :: p)))
      as [[_ Hnone]|(i' & r' & Hrun & Hrange & Hat & Hst & Hbetween)]; [lia|lia|lia| |].
    { exfalso. apply (Hnone (Z.of_nat c1) r1); [lia| |lia].
      by rewrite py_index_nat, Hr1. }
    assert (Z.of_nat c1 ≤ i')%Z as Hnear.
    { destruct (Z.le_gt_cases (Z.of_nat c1) i') as [|Hgt]; [done|].
      exfalso. apply (Hbetween (Z.of_nat c1) r1); [lia| |lia].
      by rewrite py_index_nat, Hr1. }
    assert (i' = Z.of_nat (Z.to_nat i')) as Hnat by lia.
    set (c' := Z.to_nat i') in *. rewrite Hnat in Hrun, Hat, Hbetween, Hrange.
    rewrite py_index_nat in Hat.
    destruct (l !! c') as [r0|] eqn:Hc'; [|done]. injection Hat as ->.
    rewrite Hrun. cbn [rbind].
    assert (walk l total (c' :: c :: p)) as Hwalk'.
    { apply (walk_back l c' c r' total p); [done|done|done|lia|].
      intros j rj Hj Hjl. apply (Hbetween (Z.of_nat j) rj); [lia|].
      by rewrite py_index_nat, Hjl. }
    destruct (IH (total - 1)%Z c' r' (c :: p)) as (p0 & Hloop & Hfull & Hlen0);
      [lia|lia|done|lia|by replace (total - 1 + 1)%Z with total by lia|].
    exists (p0 ++ [c']). rewrite <- app_assoc. cbn [app].
    split; [|split; [done|]].
    + rewrite <- Hloop. f_equal. by rewrite (reverse_cons _ c'), fmap_app.
    + rewrite length_app, Hlen0. cbn. lia.
Qed.

(** C3 (as amended). On a chained history whose last entry has a step
    number [n >= 0], [get_current_path] returns [n + 1] indices in ascending
    order of step number, the k-th naming an entry with step number [k] and
    the last one naming the last entry; each index is the nearest one before
    its successor whose entry has the wanted step number, that is, the
    last-appended matching entry that precedes the entry taken for the next
    step. With step numbers 0, 1, 2, 1, 2 the path is 0, 3, 4. *)
Theorem get_current_path_chained :
  (∀ l latest,
     chained l → last l = Some latest → (0 ≤ step_number latest)%Z →
     ∃ p : list nat,
       get_current_path l = Ok (Z.of_nat <$> p)
       ∧ walk l 0 p
       ∧ last p = Some (length l - 1)%nat
       ∧ length p = S (Z.to_nat (step_number latest))
       ∧ ∀ (k c : nat), p !! k = Some c →
           ∃ r, l !! c = Some r ∧ step_number r = Z.of_nat k)
  ∧ (∀ l, map step_number l = [0; 1; 2; 1; 2]%Z →
          get_current_path l = Ok [0; 3; 4]%Z).
Proof.
  split.
  - intros l latest Hchained Hlast Hstep.
    assert (l !! (length l - 1)%nat = Some latest) as Hat.
    { rewrite last_lookup in Hlast. by replace (length l - 1)%nat with (pred (length l)) by lia. }
    apply lookup_lt_Some in Hat as Hlen.
    destruct (path_loop_chained l Hchained
                (Z.to_nat (step_number latest - 1 + 1)) (step_number latest - 1)
                (length l - 1)%nat latest [])
      as (p0 & Hloop & Hwalk & Hlen0); [lia|lia|done|lia| |].
    { replace (step_number latest - 1 + 1)%Z with (step_number latest) by lia.
      by apply walk_end. }
    exists (p0 ++ [(length l - 1)%nat]).
    split; [|split; [done|split; [by rewrite last_snoc|split]]].
    + unfold get_current_path. rewrite py_index_last, Hlast. cbn [rbind].
      replace (Z.of_nat (length l) - 1)%Z with (Z.of_nat (length l - 1)) by lia.
      change [Z.of_nat (length l - 1)] with (Z.of_nat <$> reverse [(length l - 1)%nat]).
      rewrite Hloop. cbn [rbind]. by rewrite <- fmap_reverse, reverse_involutive.
    + rewrite length_app, Hlen0. cbn. lia.
    + intros k c Hk. destruct (walk_steps _ _ _ Hwalk k c Hk) as (r & Hr & Hs).
      exists r. split; [done|]. lia.
  - intros l Hsteps.
    do 6 (destruct l as [|[] l]; try discriminate Hsteps).
    injection Hsteps as -> -> -> -> ->. reflexivity.
Qed.

End History.

(** ** Running computations against a store *)

Section Store.

Lemma bind_ret {A B} (a : A) (k : A → M B) σ : bind (ret a) k σ = k a σ.
Proof. done. Qed.

Lemma bind_lift_ok {A B} (a : A) (k : A → M B) σ : bind (lift (Ok a)) k σ = k a σ.
Proof. done. Qed.

Lemma bind_lift_raise {A B} e (k : A → M B) σ : bind (lift (Raise e)) k σ = (Raise e, σ).
Proof. done. Qed.

Lemma bind_call {B} solver target (k : SolverResults → M B) σ :
  bind (call solver target) k σ = k (solver target) (emit (Solve target) σ).
Proof. done. Qed.

Lemma bind_assoc {A B C} (m : M A) (k : A → M B) (k' : B → M C) σ :
  bind (bind m k) k' σ = bind m (fun a => bind (k a) k') σ.
Proof. unfold bind. destruct (m σ) as [[a|e] σ']; [|done]. done. Qed.

(** If a sequence returns, so did its first part. *)
Lemma bind_ok_inv {A B} (m : M A) (k : A → M B) σ b σ' :
  bind m k σ = (Ok b, σ') → ∃ a σ1, m σ = (Ok a, σ1) ∧ k a σ1 = (Ok b, σ').
Proof.
  unfold bind. destruct (m σ) as [[a|e] σ1]; [|done]. intros Hk. by exists a, σ1.
Qed.

End Store.

(** ** [solve_reachable_bounds] *)

Section Bounds.
Context `{Toolbox}.

Lemma bounds_loop_assignment problem nav const_bounds create :
  ∀ objs lower0 upper0 σ lower upper σ',
    NoDup (map symbol objs) →
    bounds_loop problem nav const_bounds create objs lower0 upper0 σ
    = (Ok (lower, upper), σ') →
    (∀ objective, objective ∈ objs →
       let res := epsilon_result problem const_bounds create objective in
       ∃ solved at_nav,
         success res = true
         ∧ scalar_at (optimal_objectives res) (symbol objective) = Ok solved
         ∧ scalar_at nav (symbol objective) = Ok at_nav
         ∧ lower !! symbol objective = Some (if maximize objective then at_nav else solved)
         ∧ upper !! symbol objective = Some (if maximize objective then solved else at_nav))
    ∧ (∀ key, key ∉ map symbol objs →
         lower !! key = lower0 !! key ∧ upper !! key = upper0 !! key).
Proof.
  induction objs as [|o objs IH]; intros lower0 upper0 σ lower upper σ' Hnodup Hrun.
  - injection Hrun as <- <- <-. split; [|done]. intros o Ho. by apply elem_of_nil in Ho.
  - cbn [bounds_loop] in Hrun. cbn [map] in Hnodup. apply NoDup_cons in Hnodup as [Hfresh Hnodup].
    pose proof (eq_refl : epsilon_result problem const_bounds create o = _) as Hres.
    unfold epsilon_result in Hres at 2.
    destruct (epsilon_problem problem const_bounds o) as [eps_problem target].
    rewrite bind_call in Hrun. rewrite <- Hres in Hrun. clear Hres.
    set (res := epsilon_result problem const_bounds create o) in *.
    destruct (success res) eqn:Hsuccess; [|done]. cbn [negb] in Hrun.
    destruct (getitem (optimal_objectives res) (symbol o)) as [found|] eqn:Hfound; [|done].
    rewrite bind_lift_ok in Hrun.
    destruct (unwrapped found) as [solved|] eqn:Hsolved; [|done].
    rewrite bind_lift_ok in Hrun.
    destruct (getitem nav (symbol o)) as [here|] eqn:Hhere; [|done].
    rewrite bind_lift_ok in Hrun.
    destruct (unwrapped here) as [at_nav|] eqn:Hnav; [|done].
    rewrite bind_lift_ok in Hrun.
    apply IH in Hrun as [Hin Hout]; [|done].
    destruct (Hout (symbol o) Hfresh) as [Hlo Hup].
    rewrite lookup_insert_eq in Hlo, Hup.
    split.
    + intros o' Ho'. apply elem_of_cons in Ho' as [->|Ho']; [|by apply Hin].
      exists solved, at_nav. cbv zeta. fold res. unfold scalar_at.
      rewrite Hfound, Hhere. cbn [rbind]. rewrite Hlo, Hup. by destruct (maximize o).
    + intros key Hkey. cbn [map] in Hkey. apply not_elem_of_cons in Hkey as [Hne Hkey].
      destruct (Hout key Hkey) as [-> ->]. by rewrite !lookup_insert_ne.
Qed.


End Bounds.

(** ** The nadir point: [calculate_distance_to_front] *)

Section Nadir.
Context `{Toolbox}.

Lemma nadir_fold_other (objs : list Objective) (acc : dict) key :
  key ∉ map symbol objs →
  foldl (fun d objective => <[symbol objective := of_optional (nadir objective)]> d) acc objs
    !! key = acc !! key.
Proof.
  revert acc. induction objs as [|o objs IH]; intros acc Hkey; [done|].
  cbn [map] in Hkey. apply not_elem_of_cons in Hkey as [Hne Hkey].
  cbn [foldl]. rewrite IH by done. by apply lookup_insert_ne.
Qed.

Lemma nadir_fold_lookup (objs : list Objective) :
  NoDup (map symbol objs) →
  ∀ (acc : dict) objective, objective ∈ objs →
    foldl (fun d objective => <[symbol objective := of_optional (nadir objective)]> d) acc objs
      !! symbol objective = Some (of_optional (nadir objective)).
Proof.
  induction objs as [|o objs IH]; intros Hnodup acc objective Hin.
  - by apply elem_of_nil in Hin.
  - cbn [map] in Hnodup. apply NoDup_cons in Hnodup as [Hfresh Hnodup]. cbn [foldl].
    apply elem_of_cons in Hin as [->|Hin]; [|by apply IH].
    rewrite nadir_fold_other by done. apply lookup_insert_eq.
Qed.

Lemma comprehension_getitem_map (objs : list Objective) (d : dict) (g : Objective → value) :
  (∀ objective, objective ∈ objs → d !! symbol objective = Some (g objective)) →
  comprehension (fun objective => getitem d (symbol objective)) objs = Ok (map g objs).
Proof.
  induction objs as [|o objs IH]; intros Hall; [done|].
  cbn [comprehension map]. unfold getitem at 1. rewrite (Hall o) by left. cbn [rbind].
  rewrite IH; [done|]. intros o' Ho'. apply Hall. by right.
Qed.

(** With unique symbols the nadir point, laid out as an array, is the list
    of the objectives' nadir values. *)
Lemma nadir_array problem :
  NoDup (map symbol (objectives problem)) →
  objective_dict_to_numpy_array problem (get_nadir_dict problem)
  = Ok (map (fun objective => of_optional (nadir objective)) (objectives problem)).
Proof.
  intros Hnodup. apply comprehension_getitem_map.
  intros o Ho. by apply nadir_fold_lookup.
Qed.

Lemma const_bounds_of_reason objs nav acc why :
  const_bounds_of objs nav acc ≠ Raise (NautilusNavigatorError why).
Proof.
  revert acc. induction objs as [|o objs IH]; intros acc; [done|].
  cbn [const_bounds_of]. unfold getitem. destruct (nav !! symbol o) as [v|]; [|done].
  cbn [rbind]. destruct (maximize o); [destruct v|]; cbn [negated rbind]; done || apply IH.
Qed.

Lemma bounds_loop_reason problem nav const_bounds create why :
  ∀ objs lower upper σ,
    (bounds_loop problem nav const_bounds create objs lower upper σ).1
    = Raise (NautilusNavigatorError why) →
    ∃ objective message, why = EpsilonNotSuccessful objective message.
Proof.
  induction objs as [|o objs IH]; intros lower upper σ Hrun; [done|].
  cbn [bounds_loop] in Hrun.
  destruct (epsilon_problem problem const_bounds o) as [eps_problem target].
  rewrite bind_call in Hrun.
  destruct (success (create eps_problem target)).
  2:{ cbn in Hrun. injection Hrun as <-. eauto. }
  cbn [negb] in Hrun.
  unfold getitem in Hrun at 1.
  destruct (optimal_objectives _ !! symbol o) as [found|]; [|done].
  rewrite bind_lift_ok in Hrun.
  destruct (unwrapped found) as [solved|e] eqn:Hsolved.
  2:{ rewrite bind_lift_raise in Hrun. cbn in Hrun. injection Hrun as ->.
      destruct found as [| |[|]]; done. }
  rewrite bind_lift_ok in Hrun.
  unfold getitem in Hrun at 1.
  destruct (nav !! symbol o) as [here|]; [|done].
  rewrite bind_lift_ok in Hrun.
  destruct (unwrapped here) as [at_nav|e] eqn:Hnav.
  2:{ rewrite bind_lift_raise in Hrun. cbn in Hrun. injection Hrun as ->.
      destruct here as [| |[|]]; done. }
  rewrite bind_lift_ok in Hrun. by eapply IH.
Qed.

(** C7 (as amended). For a problem, with unique objective symbols, whose
    nadir point has no value for some objective,
    [calculate_distance_to_front] raises [NautilusNavigatorError] instead of
    computing a distance. [solve_reachable_bounds] has no such check: the
    only [NautilusNavigatorError] it raises reports a sub-solve that did not
    succeed. *)
Theorem undefined_nadir_is_reported_by_distance
    problem objective navigation_point reachable_objective_vector :
  NoDup (map symbol (objectives problem)) →
  objective ∈ objectives problem →
  nadir objective = None →
  calculate_distance_to_front problem navigation_point reachable_objective_vector
  = Raise (NautilusNavigatorError NadirUndefined)
  ∧ ∀ point create_solver σ why,
      (solve_reachable_bounds problem point create_solver σ).1
      = Raise (NautilusNavigatorError why) →
      ∃ failed message, why = EpsilonNotSuccessful failed message.
Proof.
  intros Hnodup Hin Hnone. split.
  - unfold calculate_distance_to_front. rewrite nadir_array by done. cbn [rbind].
    replace (existsb is_none _) with true; [done|].
    symmetry. apply existsb_exists. exists VNone. split; [|done].
    apply in_map_iff. exists objective. rewrite Hnone. split; [done|].
    by apply list_elem_of_In.
  - intros point create_solver σ why Hrun. unfold solve_reachable_bounds in Hrun.
    destruct (const_bounds_of (objectives problem) point ∅) as [const_bounds|e] eqn:Hconst.
    + rewrite bind_lift_ok in Hrun. by eapply bounds_loop_reason.
    + rewrite bind_lift_raise in Hrun. cbn in Hrun. injection Hrun as ->.
      by apply const_bounds_of_reason in Hconst.
Qed.

End Nadir.

(** ** Outcomes that do not depend on the store *)

Section Quiet.

Lemma genuine_bind {A B} (m : Result A) (k : A → Result B) :
  genuine m → (∀ a, genuine (k a)) → genuine (rbind m k).
Proof. destruct m as [a|e]; cbn; [auto|done]. Qed.

Lemma genuine_comprehension {A B} (f : A → Result B) xs :
  (∀ x, genuine (f x)) → genuine (comprehension f xs).
Proof.
  intros Hf. induction xs as [|x xs IH]; [done|]. cbn [comprehension].
  apply genuine_bind; [done|]. intros y. by apply genuine_bind.
Qed.

Lemma genuine_getitem d key : genuine (getitem d key).
Proof. unfold getitem. by destruct (d !! key). Qed.

Lemma genuine_as_float v : genuine (as_float v).
Proof. by destruct v. Qed.

Lemma genuine_unwrapped v : genuine (unwrapped v).
Proof. by destruct v as [| |[|]]. Qed.

Lemma genuine_array_zip op a : ∀ b, genuine (array_zip op a b).
Proof.
  induction a as [|u a IH]; intros [|v b]; try done. cbn [array_zip].
  apply genuine_bind; [apply genuine_as_float|]. intros x.
  apply genuine_bind; [apply genuine_as_float|]. intros y.
  by apply genuine_bind.
Qed.

Lemma store_eta σ : {| heap := heap σ; trace := trace σ ++ map Solve [] |} = σ.
Proof. destruct σ. cbn. by rewrite app_nil_r. Qed.

Lemma is_quiet_lift {A} (r : Result A) : genuine r → is_quiet (lift r).
Proof.
  intros Hr. exists r, []. split; [|done]. intros σ. unfold lift. by rewrite store_eta.
Qed.

Lemma is_quiet_ret {A} (a : A) : is_quiet (ret a).
Proof. by apply (is_quiet_lift (Ok a)). Qed.

Lemma is_quiet_raise {A} e : e ≠ LoopBound → is_quiet (raise (A:=A) e).
Proof. intros He. apply (is_quiet_lift (Raise e)). by destruct e. Qed.

Lemma is_quiet_call solver target : is_quiet (call solver target).
Proof. exists (Ok (solver target)), [target]. split; [|done]. by intros σ. Qed.

Lemma is_quiet_bind {A B} (m : M A) (k : A → M B) :
  is_quiet m → (∀ a, is_quiet (k a)) → is_quiet (bind m k).
Proof.
  intros (outcome & targets & Hm & Hgen) Hk. destruct outcome as [a|e].
  - destruct (Hk a) as (outcome' & targets' & Hka & Hgen').
    exists outcome', (targets ++ targets'). split; [|done].
    intros σ. unfold bind. rewrite Hm, Hka. cbn. by rewrite map_app, app_assoc.
  - exists (Raise e), targets. split; [|done]. intros σ. unfold bind. by rewrite Hm.
Qed.

Lemma settles_new r : settles (new (Response r)).
Proof. left. exists r, []. by intros σ. Qed.

Lemma settles_raise e : e ≠ LoopBound → settles (raise e).
Proof.
  intros He. right. exists e, []. split; [|done]. intros σ. unfold raise. by rewrite store_eta.
Qed.

Lemma settles_bind {A} (m : M A) (k : A → M addr) :
  is_quiet m → (∀ a, settles (k a)) → settles (bind m k).
Proof.
  intros (outcome & targets & Hm & Hgen) Hk. destruct outcome as [a|e].
  - destruct (Hk a) as [(r & targets' & Hka)|(e & targets' & Hka & He)].
    + left. exists r, (targets ++ targets'). intros σ. unfold bind. rewrite Hm, Hka. cbn.
      by rewrite map_app, <- !app_assoc.
    + right. exists e, (targets ++ targets'). split; [|done].
      intros σ. unfold bind. rewrite Hm, Hka. cbn. by rewrite map_app, app_assoc.
  - right. exists e, targets. split; [|by destruct e].
    intros σ. unfold bind. by rewrite Hm.
Qed.

End Quiet.

(** ** [navigator_step] *)

Section Step.
Context `{Toolbox}.

Lemma genuine_array_of problem d : genuine (objective_dict_to_numpy_array problem d).
Proof. apply genuine_comprehension. intros o. apply genuine_getitem. Qed.

Lemma genuine_dict_of_array objs z : ∀ i acc, genuine (dict_of_array objs i z acc).
Proof.
  induction objs as [|o objs IH]; intros i acc; [done|]. cbn [dict_of_array].
  by destruct (z !! i).
Qed.

Lemma genuine_navigation_point problem z f r :
  genuine (calculate_navigation_point problem z f r).
Proof.
  unfold calculate_navigation_point. destruct (r <=? 0)%Z; [done|].
  apply genuine_bind; [apply genuine_array_of|]. intros z_prev.
  apply genuine_bind; [apply genuine_array_of|]. intros f'.
  apply genuine_bind.
  { apply genuine_comprehension. intros v. apply genuine_bind; [apply genuine_as_float|done]. }
  intros scaled. apply genuine_bind.
  { apply genuine_comprehension. intros v. apply genuine_bind; [apply genuine_as_float|done]. }
  intros share. apply genuine_bind; [apply genuine_array_zip|].
  intros z'. apply genuine_dict_of_array.
Qed.

Lemma genuine_array_norm a : genuine (array_norm a).
Proof.
  unfold array_norm. apply genuine_bind; [|done].
  apply genuine_comprehension. apply genuine_as_float.
Qed.

Lemma genuine_distance problem z f : genuine (calculate_distance_to_front problem z f).
Proof.
  unfold calculate_distance_to_front.
  apply genuine_bind; [apply genuine_array_of|]. intros nadir_point.
  destruct (existsb is_none nadir_point); [done|].
  apply genuine_bind; [apply genuine_array_of|]. intros z_nav.
  apply genuine_bind; [apply genuine_array_of|]. intros f'.
  apply genuine_bind; [apply genuine_array_zip|]. intros to_nav.
  apply genuine_bind; [apply genuine_array_norm|]. intros travelled.
  apply genuine_bind; [apply genuine_array_zip|]. intros to_front.
  apply genuine_bind; [apply genuine_array_norm|]. done.
Qed.

Lemma genuine_const_bounds objs nav : ∀ acc, genuine (const_bounds_of objs nav acc).
Proof.
  induction objs as [|o objs IH]; intros acc; [done|]. cbn [const_bounds_of].
  apply genuine_bind; [apply genuine_getitem|]. intros v.
  apply genuine_bind; [|done]. destruct (maximize o); [by destruct v|done].
Qed.

Lemma is_quiet_bounds_loop problem nav const_bounds create :
  ∀ objs lower upper,
    is_quiet (bounds_loop problem nav const_bounds create objs lower upper).
Proof.
  induction objs as [|o objs IH]; intros lower upper; [apply is_quiet_ret|].
  cbn [bounds_loop]. destruct (epsilon_problem problem const_bounds o) as [eps_problem target].
  apply is_quiet_bind; [apply is_quiet_call|]. intros res.
  destruct (success res); cbn [negb]; [|by apply is_quiet_raise].
  apply is_quiet_bind; [apply is_quiet_lift, genuine_getitem|]. intros found.
  apply is_quiet_bind; [apply is_quiet_lift, genuine_unwrapped|]. intros solved.
  apply is_quiet_bind; [apply is_quiet_lift, genuine_getitem|]. intros here.
  apply is_quiet_bind; [apply is_quiet_lift, genuine_unwrapped|]. intros at_nav.
  apply IH.
Qed.

Lemma is_quiet_bounds problem nav create_solver :
  is_quiet (solve_reachable_bounds problem nav create_solver).
Proof.
  unfold solve_reachable_bounds.
  apply is_quiet_bind; [apply is_quiet_lift, genuine_const_bounds|]. intros const_bounds.
  apply is_quiet_bounds_loop.
Qed.

Lemma is_quiet_solution problem reference previous create_solver :
  is_quiet (solve_reachable_solution problem reference previous create_solver).
Proof.
  unfold solve_reachable_solution.
  apply is_quiet_bind; [apply is_quiet_lift, genuine_array_of|]. intros point.
  destruct (add_scalarization_function problem (create_asf problem point) "asf")
    as [problem_w_asf target].
  apply is_quiet_bind; [|intros; apply is_quiet_call].
  apply is_quiet_lift, genuine_comprehension. intros o.
  apply genuine_bind; [apply genuine_getitem|]. intros v.
  apply genuine_bind; [by destruct v|done].
Qed.

(** A step either creates one response or raises, whatever the store. *)
Lemma navigator_step_settles
    problem steps_remaining step_number nav_point create_solver
    reference_point reachable_solution :
  settles (navigator_step problem steps_remaining step_number nav_point create_solver
                          reference_point reachable_solution).
Proof.
  unfold navigator_step.
  destruct reference_point as [given|], reachable_solution as [known|];
    try by apply settles_raise.
  - apply settles_bind.
    { apply is_quiet_bind; [apply is_quiet_solution|]. intros; apply is_quiet_ret. }
    intros reachable_point.
    apply settles_bind; [apply is_quiet_lift, genuine_navigation_point|]. intros new_nav.
    apply settles_bind; [apply is_quiet_bounds|]. intros [lower upper].
    apply settles_bind; [apply is_quiet_lift, genuine_distance|]. intros distance.
    apply settles_new.
  - apply settles_bind; [apply is_quiet_ret|]. intros reachable_point.
    apply settles_bind; [apply is_quiet_lift, genuine_navigation_point|]. intros new_nav.
    apply settles_bind; [apply is_quiet_bounds|]. intros [lower upper].
    apply settles_bind; [apply is_quiet_lift, genuine_distance|]. intros distance.
    apply settles_new.
Qed.

(** C6. [navigator_step] raises [NautilusNavigatorError] when neither a
    reference point nor a reachable solution is given, and when both are; in
    either case it leaves the store as it found it, so no solver has been
    called and no response created. A call that returns was given exactly
    one of the two. *)
Theorem navigator_step_needs_exactly_one
    problem steps_remaining step_number nav_point create_solver
    (reference_point reachable_solution : option dict) (σ : store) :
  (reference_point = None → reachable_solution = None →
     navigator_step problem steps_remaining step_number nav_point create_solver
                    reference_point reachable_solution σ
     = (Raise (NautilusNavigatorError NoPreferenceGiven), σ))
  ∧ (is_Some reference_point → is_Some reachable_solution →
     navigator_step problem steps_remaining step_number nav_point create_solver
                    reference_point reachable_solution σ
     = (Raise (NautilusNavigatorError BothPreferencesGiven), σ))
  ∧ (∀ a σ',
       navigator_step problem steps_remaining step_number nav_point create_solver
                      reference_point reachable_solution σ = (Ok a, σ') →
       (is_Some reference_point ∧ reachable_solution = None)
       ∨ (reference_point = None ∧ is_Some reachable_solution)).
Proof.
  split; [|split].
  - by intros -> ->.
  - by intros [given ->] [known ->].
  - intros a σ' Hrun.
    destruct reference_point as [given|], reachable_solution as [known|];
      try discriminate Hrun; eauto.
Qed.

End Step.

(** ** [navigator_all_steps] *)

Section AllSteps.
Context `{Toolbox}.
Context (problem : Problem) (reference : dict) (create_solver : option CreateSolverType).

Lemma all_steps_loop_unfold bound responses k n nav first sol :
  all_steps_loop (S bound) problem reference create_solver responses k n nav first sol
  = if (0 <? k)%Z then
      let* response := iteration_call problem reference create_solver k n nav first sol in
      set_reference_point response (Some reference);;
      list_append responses response;;
      let* reachable_solution := get_reachable_solution response in
      let* nav_point := get_navigation_point response in
      all_steps_loop bound problem reference create_solver responses
                     (k - 1) (n + 1) nav_point false reachable_solution
    else ret ().
Proof. done. Qed.

(** One iteration on a store whose list [responses] holds [acc]: the
    response is created at the next address, its reference point is
    overwritten, and its address is appended to the list. *)
Lemma iteration_run (m : M addr) (k : option dict → dict → M unit) r targets responses σ acc :
  creates m r targets →
  heap σ !! responses = Some (ListOf acc) →
  ∃ σ3,
    (let* response := m in
     set_reference_point response (Some reference);;
     list_append responses response;;
     let* reachable_solution := get_reachable_solution response in
     let* nav_point := get_navigation_point response in
     k reachable_solution nav_point) σ
    = k (reachable_solution r) (navigation_point r) σ3
    ∧ heap σ3 = <[responses := ListOf (acc ++ [length (heap σ)])]>
                  (heap σ ++ [Response (with_reference_point (Some reference) r)]).
Proof.
  intros Hcreates Hlist.
  apply lookup_lt_Some in Hlist as Hlt.
  set (a := length (heap σ)).
  set (r' := with_reference_point (Some reference) r).
  eexists. split.
  - unfold bind at 1. rewrite Hcreates. fold a.
    unfold bind at 1, set_reference_point. cbn [heap trace].
    rewrite list_lookup_middle by done.
    rewrite insert_app_r_alt, Nat.sub_diag by (subst a; lia). cbn [insert list_insert].
    unfold bind at 1, list_append. cbn [heap trace].
    rewrite lookup_app_l, Hlist by done.
    unfold bind at 1, get_reachable_solution, bind at 1, response_at. cbn [heap trace].
    rewrite list_lookup_insert_ne by (subst a; lia).
    rewrite list_lookup_middle by done. unfold ret at 1.
    unfold bind at 1, get_navigation_point, bind at 1, response_at. cbn [heap trace].
    rewrite list_lookup_insert_ne by (subst a; lia).
    rewrite list_lookup_middle by done. unfold ret at 1.
    reflexivity.
  - done.
Qed.

Lemma all_steps_loop_outcome :
  ∀ bound k n nav first sol,
    (Z.to_nat k ≤ bound)%nat →
    ∃ outcome : Result (list NAUTILUS_Response),
      genuine outcome
      ∧ (∀ news, outcome = Ok news →
           produced problem reference create_solver k n nav first sol news)
      ∧ ∀ responses σ acc,
          heap σ !! responses = Some (ListOf acc) →
          ∃ σ',
            all_steps_loop bound problem reference create_solver responses
                           k n nav first sol σ
            = (match outcome with Ok _ => Ok () | Raise e => Raise e end, σ')
            ∧ ∀ news, outcome = Ok news →
                heap σ' = <[responses := ListOf (acc ++ seq (length (heap σ)) (length news))]>
                            (heap σ ++ map Response news).
Proof.
  induction bound as [|bound IH]; intros k n nav first sol Hbound.
  - exists (Ok []). split; [done|]. split.
    + intros news [= <-]. apply produced_none. lia.
    + intros responses σ acc Hlist. exists σ. split.
      * cbn [all_steps_loop]. by destruct (Z.ltb_spec 0 k); [lia|].
      * intros news [= <-]. cbn. rewrite !app_nil_r. by rewrite list_insert_id.
  - destruct (Z.ltb_spec 0 k) as [Hpos|Hdone].
    2:{ exists (Ok []). split; [done|]. split.
        + intros news [= <-]. by apply produced_none.
        + intros responses σ acc Hlist. exists σ. split.
          * rewrite all_steps_loop_unfold. by destruct (Z.ltb_spec 0 k); [lia|].
          * intros news [= <-]. cbn. rewrite !app_nil_r. by rewrite list_insert_id. }
    destruct (navigator_step_settles problem k n nav create_solver
                (if first then Some reference else None)
                (if first then None else sol))
      as [(r & targets & Hcreates)|(e & targets & Hfails & He)].
    + assert (creates (iteration_call problem reference create_solver k n nav first sol)
                      r targets) as Hcall.
      { unfold iteration_call. by destruct first. }
      destruct (IH (k - 1)%Z (n + 1)%Z (navigation_point r) false (reachable_solution r))
        as (rest & Hgen & Hproduced & Hrun); [lia|].
      exists (match rest with
              | Ok news => Ok (with_reference_point (Some reference) r :: news)
              | Raise e => Raise e
              end).
      split; [by destruct rest|]. split.
      * intros news Hnews. destruct rest as [news'|]; [|done]. injection Hnews as <-.
        eapply produced_step; [done|done|by apply Hproduced].
      * intros responses σ acc Hlist.
        apply lookup_lt_Some in Hlist as Hlt.
        rewrite all_steps_loop_unfold.
        destruct (Z.ltb_spec 0 k) as [_|?]; [|lia].
        destruct (iteration_run _
                    (fun reachable_solution nav_point =>
                       all_steps_loop bound problem reference create_solver responses
                                      (k - 1) (n + 1) nav_point false reachable_solution)
                    r targets responses σ acc Hcall Hlist) as (σ3 & -> & Hheap3).
        destruct (Hrun responses σ3 (acc ++ [length (heap σ)])) as (σ' & Hloop & Hheap').
        { rewrite Hheap3. apply list_lookup_insert_eq. rewrite length_app. lia. }
        exists σ'. split; [rewrite Hloop; by destruct rest|].
        intros news Hnews. destruct rest as [news'|]; [|done]. injection Hnews as <-.
        rewrite (Hheap' news' eq_refl), Hheap3.
        rewrite length_insert, length_app. cbn [length map seq].
        rewrite <- (insert_app_l (heap σ ++ [_]) (map Response news'))
          by (rewrite length_app; lia).
        rewrite list_insert_insert_eq.
        rewrite <- !app_assoc. cbn [app].
        by rewrite Nat.add_1_r.
    + exists (Raise e). split; [by destruct e|]. split; [done|].
      intros responses σ acc Hlist. rewrite all_steps_loop_unfold.
      destruct (Z.ltb_spec 0 k) as [_|?]; [|lia].
      eexists. split; [|done].
      unfold bind at 1.
      replace (iteration_call problem reference create_solver k n nav first sol σ)
        with (navigator_step problem k n nav create_solver
                (if first then Some reference else None)
                (if first then None else sol) σ)
        by (unfold iteration_call; by destruct first).
      by rewrite Hfails.
Qed.

(** *** What a created response holds *)

Lemma quiet_heap {A} (m : M A) σ outcome σ' :
  is_quiet m → m σ = (outcome, σ') → heap σ' = heap σ.
Proof. intros (o & targets & Hq & _) Hrun. rewrite Hq in Hrun. by injection Hrun as _ <-. Qed.

Lemma navigator_step_created k n nav ref reach r targets :
  creates (navigator_step problem k n nav create_solver ref reach) r targets →
  step_number r = n
  ∧ reference_point r = ref
  ∧ ∃ point,
      reachable_solution r = Some point
      ∧ calculate_navigation_point problem nav point k = Ok (navigation_point r)
      ∧ match ref with
        | Some given =>
            ∃ opt_result targets',
              quiet (solve_reachable_solution problem given nav create_solver)
                    (Ok opt_result) targets'
              ∧ point = optimal_objectives opt_result
        | None => reach = Some point
        end.
Proof.
  intros Hcreates. pose proof (Hcreates {| heap := []; trace := [] |}) as Hrun.
  cbn [heap trace length app] in Hrun. unfold navigator_step in Hrun.
  assert (∀ (point : dict) σ1 σ',
            heap σ1 = [] →
            (let* new_nav_point := lift (calculate_navigation_point problem nav point k) in
             let* (lower_bounds, upper_bounds) :=
               solve_reachable_bounds problem new_nav_point create_solver in
             let* distance :=
               lift (calculate_distance_to_front problem new_nav_point point) in
             new (Response {|
               step_number := n;
               distance_to_front := distance;
               navigation_point := new_nav_point;
               reachable_solution := Some point;
               reference_point := ref;
               reachable_bounds := bounds_dict lower_bounds upper_bounds |})) σ1
            = (Ok 0%nat, σ') →
            heap σ' = [Response r] →
            step_number r = n ∧ reference_point r = ref
            ∧ reachable_solution r = Some point
            ∧ calculate_navigation_point problem nav point k = Ok (navigation_point r))
    as Htail.
  { intros point σ1 σ' Hempty Htail Hheap.
    destruct (calculate_navigation_point problem nav point k) as [new_nav|]; [|done].
    rewrite bind_lift_ok in Htail.
    apply bind_ok_inv in Htail as ([lower upper] & σ2 & Hbounds & Htail).
    apply quiet_heap in Hbounds; [|apply is_quiet_bounds].
    destruct (calculate_distance_to_front problem new_nav point) as [distance|]; [|done].
    rewrite bind_lift_ok in Htail. unfold new in Htail.
    injection Htail as _ <-. cbn [heap] in Hheap.
    rewrite Hbounds, Hempty in Hheap. by injection Hheap as <-. }
  destruct ref as [given|], reach as [known|]; try discriminate Hrun.
  - rewrite bind_assoc in Hrun.
    destruct (is_quiet_solution problem given nav create_solver)
      as ([opt_result|e] & targets' & Hquiet & _).
    2:{ unfold bind in Hrun at 1. by rewrite Hquiet in Hrun. }
    unfold bind in Hrun at 1. rewrite Hquiet, bind_ret in Hrun.
    apply Htail in Hrun as (Hn & Href & Hsol & Hnav); [|done|done].
    split; [done|]. split; [done|]. exists (optimal_objectives opt_result). eauto 10.
  - rewrite bind_ret in Hrun.
    apply Htail in Hrun as (Hn & Href & Hsol & Hnav); [|done|done].
    split; [done|]. split; [done|]. exists known. eauto.
Qed.

(** *** What the loop produces *)

Lemma produced_length k n nav first sol news :
  produced problem reference create_solver k n nav first sol news →
  length news = Z.to_nat k.
Proof. induction 1 as [|k n nav first sol r targets rest Hk _ _ IH]; cbn; lia. Qed.

Lemma produced_step_numbers k n nav first sol news :
  produced problem reference create_solver k n nav first sol news →
  map step_number news = map (fun i => (n + Z.of_nat i)%Z) (seq 0 (Z.to_nat k)).
Proof.
  induction 1 as [k n ? ? ? Hk|k n nav first sol r targets rest Hk Hcreates _ IH].
  - by replace (Z.to_nat k) with 0%nat by lia.
  - replace (Z.to_nat k) with (S (Z.to_nat (k - 1))) by lia.
    cbn [map seq]. f_equal.
    + unfold iteration_call in Hcreates.
      destruct first; apply navigator_step_created in Hcreates as [Hn _]; cbn; lia.
    + rewrite IH, <- fmap_S_seq. rewrite <- list_fmap_compose.
      apply list_fmap_ext. intros _ i _. cbn. lia.
Qed.

(** After the first iteration every response carries the reachable solution
    handed to its step. *)
Lemma produced_same_solution k n nav point news :
  produced problem reference create_solver k n nav false (Some point) news →
  ∀ r, r ∈ news → reachable_solution r = Some point.
Proof.
  remember false as first eqn:Hfirst. remember (Some point) as sol eqn:Hsol.
  induction 1 as [|k n nav first sol r targets rest _ Hcreates _ IH]; intros r' Hr'.
  - by apply elem_of_nil in Hr'.
  - subst first sol. unfold iteration_call in Hcreates.
    apply navigator_step_created in Hcreates as (_ & _ & point' & Hsol' & _ & Hgiven).
    rewrite Hsol' in IH. injection Hgiven as <-.
    apply elem_of_cons in Hr' as [->|Hr']; [done|by apply IH].
Qed.

(** The created response behind each produced one. *)
Lemma produced_created k n nav first sol news :
  produced problem reference create_solver k n nav first sol news →
  ∀ (i : nat) r', news !! i = Some r' →
    ∃ created k' n' nav' sol' targets,
      creates (iteration_call problem reference create_solver k' n' nav'
                              (if i is O then first else false) sol')
              created targets
      ∧ r' = with_reference_point (Some reference) created.
Proof.
  induction 1 as [|k n nav first sol r targets rest _ Hcreates _ IH]; intros i r' Hi; [done|].
  destruct i as [|i].
  - injection Hi as <-. by exists r, k, n, nav, sol, targets.
  - destruct (IH i r' Hi) as (created & k' & n' & nav' & sol' & targets' & Hc & ->).
    exists created, k', n', nav', sol', targets'. split; [|done]. by destruct i.
Qed.

(** *** The whole call *)

Lemma navigator_all_steps_outcome k prev_nav prev_step :
  ∃ outcome : Result (list NAUTILUS_Response),
    genuine outcome
    ∧ (∀ news, outcome = Ok news →
         produced problem reference create_solver k (prev_step + 1) prev_nav true None news)
    ∧ ∀ σ prev items latest r_latest,
        heap σ !! prev = Some (ListOf items) →
        last items = Some latest →
        heap σ !! latest = Some (Response r_latest) →
        navigation_point r_latest = prev_nav →
        step_number r_latest = prev_step →
        ∃ σ',
          navigator_all_steps problem k reference prev create_solver σ
          = (match outcome with Ok _ => Ok (length (heap σ)) | Raise e => Raise e end, σ')
          ∧ ∀ news, outcome = Ok news →
              heap σ' = heap σ ++ ListOf (seq (S (length (heap σ))) (length news))
                               :: map Response news.
Proof.
  destruct (all_steps_loop_outcome (Z.to_nat k) k (prev_step + 1)%Z prev_nav true None)
    as (outcome & Hgen & Hproduced & Hrun); [done|].
  exists outcome. split; [done|]. split; [done|].
  intros σ prev items latest r_latest Hprev Hlast Hlatest Hnav Hstep.
  apply lookup_lt_Some in Hprev as Hprev_lt. apply lookup_lt_Some in Hlatest as Hlatest_lt.
  set (σ1 := {| heap := heap σ ++ [ListOf []];
                trace := trace σ ++ [New (length (heap σ)) (ListOf [])] |}).
  destruct (Hrun (length (heap σ)) σ1 []) as (σ' & Hloop & Hheap).
  { cbn [heap σ1]. by rewrite list_lookup_middle. }
  exists σ'. split.
  - unfold navigator_all_steps.
    unfold bind at 1, new. fold σ1.
    unfold bind at 1, list_last. cbn [heap σ1]. rewrite lookup_app_l, Hprev, Hlast by done.
    unfold bind at 1, get_navigation_point, bind at 1, response_at. cbn [heap σ1].
    rewrite lookup_app_l, Hlatest by done. unfold ret at 1.
    unfold bind at 1, list_last. cbn [heap σ1]. rewrite lookup_app_l, Hprev, Hlast by done.
    unfold bind at 1, get_step_number, bind at 1, response_at. cbn [heap σ1].
    rewrite lookup_app_l, Hlatest by done. unfold ret at 1.
    rewrite Hnav, Hstep. unfold bind at 1. rewrite Hloop. by destruct outcome.
  - intros news Hnews. rewrite (Hheap news Hnews). cbn [heap σ1 app].
    rewrite length_app. cbn [length]. rewrite Nat.add_1_r.
    rewrite <- app_assoc. cbn [app].
    rewrite insert_app_r_alt, Nat.sub_diag by lia. done.
Qed.

Lemma responses_at_fresh σ' (h : list object) news :
  heap σ' = h ++ ListOf (seq (S (length h)) (length news)) :: map Response news →
  responses_at σ' (length h) = Some news.
Proof.
  intros Hheap. unfold responses_at. rewrite Hheap, list_lookup_middle by done.
  apply mapM_Some. apply Forall2_same_length_lookup. split; [by rewrite length_seq|].
  intros i a r Ha Hr. apply lookup_seq in Ha as [-> _].
  rewrite cons_middle, app_assoc, lookup_app_r by (rewrite length_app; cbn; lia).
  rewrite length_app. cbn [length].
  replace (S (length h) + i - (length h + 1))%nat with i by lia.
  change (map Response news) with (Response <$> news).
  by rewrite list_lookup_fmap, Hr.
Qed.

End AllSteps.

Section AllStepsClaims.
Context `{Toolbox}.
Context (problem : Problem) (reference : dict) (create_solver : option CreateSolverType).

(** C2. Called with [k > 0] steps remaining on a history whose last entry
    has step number [n], [navigator_all_steps] never exhausts the bound of
    its loop, and when it returns, the list it returns is a new list of
    exactly [k] responses with step numbers [n + 1], ..., [n + k] in that
    order. The first is computed from the navigation point of the last
    entry: its reachable solution is the projection of the reference point
    from that navigation point and its navigation point is the recurrence
    applied to the two. Every later response carries the same reachable
    solution. The caller's list and every object that existed before the
    call are unchanged. *)
Theorem navigator_all_steps_returns_k_steps
    (k : Z) (prev : addr) (σ : store) items latest r_latest :
  heap σ !! prev = Some (ListOf items) →
  last items = Some latest →
  heap σ !! latest = Some (Response r_latest) →
  (0 < k)%Z →
  genuine (navigator_all_steps problem k reference prev create_solver σ).1
  ∧ ∀ out σ',
      navigator_all_steps problem k reference prev create_solver σ = (Ok out, σ') →
      ∃ first rest point,
        responses_at σ' out = Some (first :: rest)
        ∧ length (first :: rest) = Z.to_nat k
        ∧ map step_number (first :: rest)
          = map (fun i => (step_number r_latest + 1 + Z.of_nat i)%Z) (seq 0 (Z.to_nat k))
        ∧ reachable_solution first = Some point
        ∧ (∃ opt_result targets,
             quiet (solve_reachable_solution problem reference
                      (navigation_point r_latest) create_solver)
                   (Ok opt_result) targets
             ∧ point = optimal_objectives opt_result)
        ∧ calculate_navigation_point problem (navigation_point r_latest) point k
          = Ok (navigation_point first)
        ∧ (∀ r, r ∈ rest → reachable_solution r = Some point)
        ∧ heap σ' !! prev = Some (ListOf items)
        ∧ (∀ a, (a < length (heap σ))%nat → heap σ' !! a = heap σ !! a).
Proof.
  intros Hprev Hlast Hlatest Hk.
  destruct (navigator_all_steps_outcome problem reference create_solver
              k (navigation_point r_latest) (step_number r_latest))
    as (outcome & Hgen & Hproduced & Hrun).
  destruct (Hrun σ prev items latest r_latest) as (σ1 & Hcall & Hheap); [done..|].
  rewrite Hcall. split; [by destruct outcome|].
  intros out σ' Hok. destruct outcome as [news|]; [|done].
  injection Hok as <- <-.
  specialize (Hproduced news eq_refl). specialize (Hheap news eq_refl).
  pose proof (produced_length _ _ _ _ _ _ _ _ _ Hproduced) as Hlen.
  pose proof (produced_step_numbers _ _ _ _ _ _ _ _ _ Hproduced) as Hsteps.
  inversion Hproduced as [|? ? ? ? ? r targets rest _ Hcreates Hrest]; [lia|]. subst.
  unfold iteration_call in Hcreates.
  apply navigator_step_created in Hcreates
    as (_ & _ & point & Hsol & Hnav & opt_result & targets' & Hquiet & Hpoint).
  rewrite Hsol in Hrest.
  exists (with_reference_point (Some reference) r), rest, point.
  split; [by apply responses_at_fresh|]. split; [done|]. split; [done|].
  split; [done|]. split; [eauto|]. split; [done|].
  split; [by apply (produced_same_solution _ _ _ _ _ _ _ _ Hrest)|].
  assert (∀ a, (a < length (heap σ))%nat → heap σ1 !! a = heap σ !! a) as Hframe.
  { intros a Ha. rewrite Hheap. by apply lookup_app_l. }
  split; [|done]. rewrite Hframe; [done|]. by eapply lookup_lt_Some.
Qed.

(** C9 (as amended). Every response that [navigator_all_steps] returns was
    created by a call of [navigator_step], the first with the reference
    point and the later ones with the reachable solution only;
    [navigator_all_steps] then assigns the reference point of the call to
    its [reference_point] field, which [navigator_step] had left at [None]
    for every response after the first, and changes no other field. No
    object that existed before the call, in particular no response of the
    caller's history, is modified. *)
Theorem navigator_all_steps_overwrites_reference_point
    (k : Z) (prev : addr) (σ : store) items latest r_latest out σ' :
  heap σ !! prev = Some (ListOf items) →
  last items = Some latest →
  heap σ !! latest = Some (Response r_latest) →
  navigator_all_steps problem k reference prev create_solver σ = (Ok out, σ') →
  ∃ news,
    responses_at σ' out = Some news
    ∧ (∀ (i : nat) r', news !! i = Some r' →
         ∃ created steps_remaining step nav_point solution targets,
           creates (navigator_step problem steps_remaining step nav_point create_solver
                      (if i is O then Some reference else None)
                      (if i is O then None else solution))
                   created targets
           ∧ reference_point created = (if i is O then Some reference else None)
           ∧ r' = with_reference_point (Some reference) created
           ∧ step_number r' = step_number created
           ∧ distance_to_front r' = distance_to_front created
           ∧ navigation_point r' = navigation_point created
           ∧ reachable_solution r' = reachable_solution created
           ∧ reachable_bounds r' = reachable_bounds created)
    ∧ (∀ a, (a < length (heap σ))%nat → heap σ' !! a = heap σ !! a).
Proof.
  intros Hprev Hlast Hlatest Hok.
  destruct (navigator_all_steps_outcome problem reference create_solver
              k (navigation_point r_latest) (step_number r_latest))
    as (outcome & Hgen & Hproduced & Hrun).
  destruct (Hrun σ prev items latest r_latest) as (σ1 & Hcall & Hheap); [done..|].
  rewrite Hcall in Hok. destruct outcome as [news|]; [|done].
  injection Hok as <- <-.
  specialize (Hproduced news eq_refl). specialize (Hheap news eq_refl).
  exists news. split; [by apply responses_at_fresh|]. split.
  - intros i r' Hi.
    destruct (produced_created _ _ _ _ _ _ _ _ _ Hproduced i r' Hi)
      as (created & k' & n' & nav' & sol' & targets & Hcreates & ->).
    unfold iteration_call in Hcreates.
    exists created, k', n', nav', sol', targets.
    assert (creates (navigator_step problem k' n' nav' create_solver
                       (if i is O then Some reference else None)
                       (if i is O then None else sol')) created targets) as Hstep.
    { by destruct i. }
    split; [done|]. split; [|done].
    by apply navigator_step_created in Hstep as (_ & -> & _).
  - intros a Ha. rewrite Hheap. by apply lookup_app_l.
Qed.

(** C10. [navigator_all_steps] reads its history only through the last
    entry: on two stores and two non-empty histories whose last responses
    are equal, with the other arguments equal, the two calls either both
    return, and the lists they return hold the same responses, or both
    raise the same exception. *)
Theorem navigator_all_steps_depends_on_last_only
    (k : Z) r_latest
    (prev1 : addr) (σ1 : store) items1 latest1
    (prev2 : addr) (σ2 : store) items2 latest2 :
  heap σ1 !! prev1 = Some (ListOf items1) →
  last items1 = Some latest1 →
  heap σ1 !! latest1 = Some (Response r_latest) →
  heap σ2 !! prev2 = Some (ListOf items2) →
  last items2 = Some latest2 →
  heap σ2 !! latest2 = Some (Response r_latest) →
  match navigator_all_steps problem k reference prev1 create_solver σ1,
        navigator_all_steps problem k reference prev2 create_solver σ2 with
  | (Ok out1, σ1'), (Ok out2, σ2') =>
      ∃ news, responses_at σ1' out1 = Some news ∧ responses_at σ2' out2 = Some news
  | (Raise e1, _), (Raise e2, _) => e1 = e2 ∧ e1 ≠ LoopBound
  | _, _ => False
  end.
Proof.
  intros Hprev1 Hlast1 Hlatest1 Hprev2 Hlast2 Hlatest2.
  destruct (navigator_all_steps_outcome problem reference create_solver
              k (navigation_point r_latest) (step_number r_latest))
    as (outcome & Hgen & _ & Hrun).
  destruct (Hrun σ1 prev1 items1 latest1 r_latest) as (σ1' & -> & Hheap1); [done..|].
  destruct (Hrun σ2 prev2 items2 latest2 r_latest) as (σ2' & -> & Hheap2); [done..|].
  destruct outcome as [news|e].
  - exists news. split; apply responses_at_fresh; auto.
  - split; [done|]. by destruct e.
Qed.

End AllStepsClaims.

(** * Further properties *)

(** ** The history, whatever its shape *)

Section HistoryOutcomes.
Implicit Types (l responses : list NAUTILUS_Response).

Lemma indices_of_step_none responses wanted : ∀ i,
  (∀ r, r ∈ responses → step_number r ≠ wanted) →
  indices_of_step responses i wanted = [].
Proof.
  induction responses as [|r responses IH]; intros i Habsent; [done|].
  cbn [indices_of_step].
  destruct (Z.eqb_spec (step_number r) wanted) as [Hr|_].
  - exfalso. apply (Habsent r); [by left|done].
  - apply IH. intros r' Hr'. apply Habsent. by right.
Qed.

(** X1. [step_back_index] fails exactly when no entry of the history
    carries the queried step number, the empty history included, and then
    with Python's [IndexError]; an index it returns is a position of the
    list. *)
Theorem step_back_index_raises_iff_absent responses wanted :
  (step_back_index responses wanted = Raise IndexError
   ↔ ∀ r, r ∈ responses → step_number r ≠ wanted)
  ∧ (∀ e, step_back_index responses wanted = Raise e → e = IndexError)
  ∧ (∀ j, step_back_index responses wanted = Ok j →
          (0 ≤ j < Z.of_nat (length responses))%Z).
Proof.
  assert ((∃ r, r ∈ responses ∧ step_number r = wanted) →
          ∃ j : nat, step_back_index responses wanted = Ok (Z.of_nat j)
                     ∧ (j < length responses)%nat) as Hfound.
  { intros Hsome.
    destruct (indices_of_step_last responses wanted Hsome) as (j & r & Hlast & Hat & _).
    exists j. unfold step_back_index. rewrite py_index_last, Hlast.
    split; [done|]. by eapply lookup_lt_Some. }
  assert ((∀ r, r ∈ responses → step_number r ≠ wanted) →
          step_back_index responses wanted = Raise IndexError) as Habsent.
  { intros Hnone. unfold step_back_index. by rewrite indices_of_step_none. }
  destruct (decide (Exists (fun r => step_number r = wanted) responses)) as [Hex|Hnex].
  - apply Exists_exists in Hex. destruct (Hfound Hex) as (j & Hrun & Hlt).
    rewrite Hrun. split; [|split]; [|done|].
    + split; [done|]. intros Hnone. destruct Hex as (r & Hr & Hstep). by apply Hnone in Hr.
    + intros j' [= <-]. lia.
  - assert (∀ r, r ∈ responses → step_number r ≠ wanted) as Hnone.
    { intros r Hr Hstep. apply Hnex, Exists_exists. eauto. }
    rewrite (Habsent Hnone). split; [done|]. split; [by intros e [= <-]|done].
Qed.

(** The outer loop, on any history: a failed lookup, or one more index per
    step number down to 0, each naming, as a Python index, an entry with
    that step number. *)
Lemma path_loop_outcome l : ∀ bound total i path,
  (i ≤ Z.of_nat (length l))%Z →
  (total + 1 ≤ Z.of_nat bound)%Z →
  path_loop bound l total i path = Raise IndexError
  ∨ ∃ more,
      path_loop bound l total i path = Ok (path ++ more)
      ∧ length more = Z.to_nat (total + 1)
      ∧ ∀ (k : nat) j, more !! k = Some j →
          ∃ r, py_index l j = Ok r ∧ step_number r = (total - Z.of_nat k)%Z.
Proof.
  induction bound as [|bound IH]; intros total i path Hi Hbound.
  - right. exists []. cbn [path_loop]. destruct (Z.leb_spec 0 total) as [?|_]; [lia|].
    rewrite app_nil_r. split; [done|]. split; [cbn; lia|done].
  - cbn [path_loop]. destruct (Z.leb_spec 0 total) as [Hge|Hlt].
    2:{ right. exists []. rewrite app_nil_r. split; [done|]. split; [cbn; lia|done]. }
    destruct (find_loop_outcome l total (2 * length l + 2) i path)
      as [[Hraise _]|(i' & r & Hrun & Hrange & Hat & Hst & _)]; [lia|lia|lia| |].
    { left. by rewrite Hraise. }
    rewrite Hrun. cbn [rbind].
    destruct (IH (total - 1)%Z i' (path ++ [i'])) as [Hfail|(more & Hloop & Hlen & Hmore)];
      [lia|lia|by left|].
    right. exists (i' :: more). rewrite Hloop, <- app_assoc. split; [done|].
    split; [cbn [length]; lia|].
    intros k j Hk. destruct k as [|k].
    + injection Hk as <-. exists r. split; [done|]. lia.
    + destruct (Hmore k j Hk) as (r' & Hr' & Hs'). exists r'. split; [done|]. lia.
Qed.

(** X2. On any history [get_current_path] ends in one of two ways: a failed
    lookup ([IndexError], which is what the empty history gives), or a path
    that ends with the index of the last entry. When the last entry has a
    step number [n >= 0] the path has [n + 1] indices and the k-th names,
    as a Python index, an entry with step number [k]; when [n] is negative
    the path is the index of the last entry alone. *)
Theorem get_current_path_outcome l :
  (l = [] → get_current_path l = Raise IndexError)
  ∧ (get_current_path l = Raise IndexError
     ∨ ∃ latest path,
         last l = Some latest
         ∧ get_current_path l = Ok path
         ∧ length path = S (Z.to_nat (step_number latest))
         ∧ last path = Some (Z.of_nat (length l) - 1)%Z
         ∧ ((0 ≤ step_number latest)%Z →
            ∀ (k : nat) j, path !! k = Some j →
              ∃ r, py_index l j = Ok r ∧ step_number r = Z.of_nat k)).
Proof.
  split; [by intros ->|].
  unfold get_current_path. rewrite py_index_last.
  destruct (last l) as [latest|] eqn:Hlast; [|by left]. cbn [rbind].
  set (n := step_number latest).
  destruct (path_loop_outcome l (Z.to_nat (n - 1 + 1)) (n - 1)
              (Z.of_nat (length l) - 1) [(Z.of_nat (length l) - 1)%Z])
    as [Hfail|(more & Hloop & Hlen & Hmore)]; [lia|lia|by left; rewrite Hfail|].
  right. exists latest, (reverse ([(Z.of_nat (length l) - 1)%Z] ++ more)).
  rewrite Hloop. cbn [rbind app].
  split; [done|]. split; [done|].
  split; [rewrite length_reverse; cbn [length]; lia|].
  rewrite reverse_cons, last_snoc. split; [done|].
  intros Hn k j Hk.
  assert (length more = Z.to_nat n) as Hlen' by lia.
  destruct (decide (k < length more)%nat) as [Hin|Hout].
  - rewrite lookup_app_l in Hk by (by rewrite length_reverse).
    rewrite reverse_lookup in Hk by done.
    destruct (Hmore _ _ Hk) as (r & Hr & Hs). exists r. split; [done|]. lia.
  - rewrite lookup_app_r in Hk by (rewrite length_reverse; lia).
    rewrite length_reverse in Hk.
    destruct (k - length more)%nat as [|d] eqn:Hd; [|done].
    injection Hk as <-. exists latest. split.
    + replace (Z.of_nat (length l) - 1)%Z with (Z.of_nat (pred (length l))).
      * rewrite py_index_nat, <- last_lookup. by rewrite Hlast.
      * apply last_Some_elem_of, list_elem_of_lookup in Hlast as [c Hc].
        apply lookup_lt_Some in Hc. lia.
    + subst n. lia.
Qed.

End HistoryOutcomes.

(** ** The recurrence: missing entries, and what success tells *)

Section RecurrenceOutcomes.
Context `{Toolbox}.


Lemma comprehension_getitem_total (objs : list Objective) (d : dict) :
  (∀ objective, objective ∈ objs → is_Some (d !! symbol objective)) →
  ∃ array, comprehension (fun objective => getitem d (symbol objective)) objs = Ok array.
Proof.
  induction objs as [|o objs IH]; intros Hall; [by exists []|].
  destruct (Hall o) as [v Hv]; [by left|].
  destruct IH as [array Harray]; [intros o' Ho'; apply Hall; by right|].
  exists (v :: array). cbn [comprehension]. unfold getitem at 1. by rewrite Hv, Harray.
Qed.

Lemma comprehension_getitem_missing (pre post : list Objective) o (d : dict) :
  (∀ objective, objective ∈ pre → is_Some (d !! symbol objective)) →
  d !! symbol o = None →
  comprehension (fun objective => getitem d (symbol objective)) (pre ++ o :: post)
  = Raise (KeyError (symbol o)).
Proof.
  induction pre as [|o' pre IH]; intros Hall Hnone; cbn [app comprehension].
  - unfold getitem at 1. by rewrite Hnone.
  - destruct (Hall o') as [v Hv]; [by left|].
    unfold getitem at 1. rewrite Hv. cbn [rbind].
    rewrite IH; [done| |done]. intros o'' Ho''. apply Hall. by right.
Qed.

(** X3. With a positive number of steps, [calculate_navigation_point]
    raises [KeyError] for the first objective, in the order of the problem,
    whose symbol the previous navigation point lacks; when the previous
    navigation point has them all, for the first objective whose symbol the
    reachable vector lacks. *)
Theorem calculate_navigation_point_missing_key
    (problem : Problem) (z f : dict) (r : Z) pre objective post :
  (0 < r)%Z →
  objectives problem = pre ++ objective :: post →
  ((∀ o, o ∈ pre → is_Some (z !! symbol o)) →
   z !! symbol objective = None →
   calculate_navigation_point problem z f r = Raise (KeyError (symbol objective)))
  ∧ ((∀ o, o ∈ objectives problem → is_Some (z !! symbol o)) →
     (∀ o, o ∈ pre → is_Some (f !! symbol o)) →
     f !! symbol objective = None →
     calculate_navigation_point problem z f r = Raise (KeyError (symbol objective))).
Proof.
  intros Hr Hobjs. unfold calculate_navigation_point, objective_dict_to_numpy_array.
  rewrite (proj2 (Z.leb_gt r 0) Hr). split.
  - intros Hpre Hnone. rewrite Hobjs. by rewrite comprehension_getitem_missing.
  - intros Hall Hpre Hnone.
    destruct (comprehension_getitem_total _ _ Hall) as [array ->]. cbn [rbind].
    rewrite Hobjs. by rewrite comprehension_getitem_missing.
Qed.




End RecurrenceOutcomes.

(** ** The navigation points of one call *)

Section Spacing.
Context `{Toolbox}.
Context (problem : Problem) (reference : dict) (create_solver : option CreateSolverType).







End Spacing.

(** ** [solve_reachable_bounds]: keys, solver calls, failure *)

Section BoundsEffects.
Context `{Toolbox}.

Lemma solve_targets_app t1 t2 : solve_targets (t1 ++ t2) = solve_targets t1 ++ solve_targets t2.
Proof. apply omap_app. Qed.

Lemma solve_targets_solves targets : solve_targets (map Solve targets) = targets.
Proof. unfold solve_targets. induction targets as [|t targets IH]; [done|]. cbn. by f_equal. Qed.

Lemma bounds_loop_effects problem nav const_bounds create :
  ∀ objs lower0 upper0 σ lower upper σ',
    bounds_loop problem nav const_bounds create objs lower0 upper0 σ
    = (Ok (lower, upper), σ') →
    heap σ' = heap σ
    ∧ (∃ targets, trace σ' = trace σ ++ map Solve targets ∧ length targets = length objs)
    ∧ (∀ key, is_Some (lower !! key) ↔ is_Some (lower0 !! key) ∨ key ∈ map symbol objs)
    ∧ (∀ key, is_Some (upper !! key) ↔ is_Some (upper0 !! key) ∨ key ∈ map symbol objs).
Proof.
  induction objs as [|o objs IH]; intros lower0 upper0 σ lower upper σ' Hrun.
  - injection Hrun as <- <- <-. split; [done|]. split.
    + exists []. by rewrite app_nil_r.
    + split; intros key; (split; [by left|intros [?|Hin]; [done|by apply elem_of_nil in Hin]]).
  - cbn [bounds_loop] in Hrun.
    destruct (epsilon_problem problem const_bounds o) as [eps_problem target].
    rewrite bind_call in Hrun.
    destruct (success (create eps_problem target)); [|done]. cbn [negb] in Hrun.
    destruct (getitem (optimal_objectives _) (symbol o)) as [found|]; [|done].
    rewrite bind_lift_ok in Hrun.
    destruct (unwrapped found) as [solved|]; [|done].
    rewrite bind_lift_ok in Hrun.
    destruct (getitem nav (symbol o)) as [here|]; [|done].
    rewrite bind_lift_ok in Hrun.
    destruct (unwrapped here) as [at_nav|]; [|done].
    rewrite bind_lift_ok in Hrun.
    apply IH in Hrun as (Hheap & (targets & Htrace & Hlen) & Hlower & Hupper).
    split; [done|]. split.
    + exists (target :: targets). cbn [emit trace] in Htrace.
      rewrite Htrace, <- app_assoc. split; [done|]. cbn [length]. by rewrite Hlen.
    + split; intros key; [rewrite Hlower|rewrite Hupper]; cbn [map];
        rewrite elem_of_cons, lookup_insert_is_Some;
        (destruct (decide (symbol o = key)) as [<-|?]; intuition congruence).
Qed.

Lemma solve_reachable_bounds_effects
    problem navigation_point create_solver σ lower_bounds upper_bounds σ' :
  solve_reachable_bounds problem navigation_point create_solver σ
  = (Ok (lower_bounds, upper_bounds), σ') →
  heap σ' = heap σ
  ∧ (∃ targets,
       trace σ' = trace σ ++ map Solve targets
       ∧ length targets = length (objectives problem))
  ∧ (∀ key, is_Some (lower_bounds !! key) ↔ key ∈ map symbol (objectives problem))
  ∧ (∀ key, is_Some (upper_bounds !! key) ↔ key ∈ map symbol (objectives problem)).
Proof.
  intros Hrun. unfold solve_reachable_bounds in Hrun.
  destruct (const_bounds_of (objectives problem) navigation_point ∅) as [const_bounds|];
    [|done].
  rewrite bind_lift_ok in Hrun.
  apply bounds_loop_effects in Hrun as (Hheap & Htrace & Hlower & Hupper).
  split; [done|]. split; [done|].
  split; intros key; [rewrite Hlower|rewrite Hupper]; rewrite lookup_empty;
    (split; [intros [[? ?]|?]; done|by right]).
Qed.

(** X5. When [solve_reachable_bounds] returns, it has called a solver once
    per objective and done nothing else to the store, and the keys of both
    mappings it returns are exactly the objective symbols. *)
Theorem solve_reachable_bounds_keys_and_calls
    problem navigation_point create_solver σ lower_bounds upper_bounds σ' :
  solve_reachable_bounds problem navigation_point create_solver σ
  = (Ok (lower_bounds, upper_bounds), σ') →
  heap σ' = heap σ
  ∧ (∃ targets,
       trace σ' = trace σ ++ map Solve targets
       ∧ length targets = length (objectives problem))
  ∧ (∀ key, is_Some (lower_bounds !! key) ↔ key ∈ map symbol (objectives problem))
  ∧ (∀ key, is_Some (upper_bounds !! key) ↔ key ∈ map symbol (objectives problem)).
Proof. apply solve_reachable_bounds_effects. Qed.

Lemma const_bounds_of_values (objs : list Objective) (nav : dict) :
  NoDup (map symbol objs) →
  numeric_on objs nav →
  ∀ acc, ∃ const_bounds,
    const_bounds_of objs nav acc = Ok const_bounds
    ∧ (∀ objective, objective ∈ objs →
         const_bounds !! symbol objective
         = Some (VFloat (if maximize objective
                         then inject_Z (-1) * float_at nav (symbol objective)
                         else float_at nav (symbol objective))%Q))
    ∧ (∀ key, key ∉ map symbol objs → const_bounds !! key = acc !! key).
Proof.
  induction objs as [|o objs IH]; intros Hnodup Hnum acc.
  - exists acc. split; [done|]. split; [|done]. intros o Ho. by apply elem_of_nil in Ho.
  - apply numeric_on_cons in Hnum as [Ho Hnum]. cbn [map] in Hnodup.
    apply NoDup_cons in Hnodup as [Hfresh Hnodup]. cbn [const_bounds_of].
    unfold getitem. rewrite Ho. cbn [rbind].
    set (bound := (if maximize o then inject_Z (-1) * float_at nav (symbol o)
                   else float_at nav (symbol o))%Q).
    replace (if maximize o then negated (VFloat (float_at nav (symbol o)))
             else Ok (VFloat (float_at nav (symbol o))))
      with (Ok (VFloat bound)) by (subst bound; by destruct (maximize o)).
    cbn [rbind].
    destruct (IH Hnodup Hnum (<[symbol o := VFloat bound]> acc)) as (cb & Hcb & Hin & Hout).
    exists cb. split; [done|]. split.
    + intros o' Ho'. apply elem_of_cons in Ho' as [->|Ho']; [|by apply Hin].
      rewrite (Hout _ Hfresh). by rewrite lookup_insert_eq.
    + intros key Hkey. cbn [map] in Hkey. apply not_elem_of_cons in Hkey as [Hne Hkey].
      rewrite (Hout _ Hkey). by apply lookup_insert_ne.
Qed.

End BoundsEffects.

(** ** [solve_reachable_bounds]: the first sub-solve that fails *)

Section BoundsFailure.
Context `{Toolbox}.

Lemma bounds_loop_first_failure problem nav const_bounds create o post :
  success (epsilon_result problem const_bounds create o) = false →
  ∀ pre lower upper σ,
    (∀ o', o' ∈ pre →
       success (epsilon_result problem const_bounds create o') = true
       ∧ (∃ v, scalar_at (optimal_objectives
                            (epsilon_result problem const_bounds create o'))
                         (symbol o') = Ok v)
       ∧ (∃ v, scalar_at nav (symbol o') = Ok v)) →
    ∃ targets,
      bounds_loop problem nav const_bounds create (pre ++ o :: post) lower upper σ
      = (Raise (NautilusNavigatorError
                  (EpsilonNotSuccessful (symbol o)
                     (message (epsilon_result problem const_bounds create o)))),
         {| heap := heap σ; trace := trace σ ++ map Solve targets |})
      ∧ length targets = S (length pre).
Proof.
  intros Hfails. induction pre as [|o' pre IH]; intros lower upper σ Hpre.
  - cbn [app bounds_loop]. unfold epsilon_result in Hfails |- *.
    destruct (epsilon_problem problem const_bounds o) as [eps_problem target].
    rewrite bind_call, Hfails. cbn [negb]. by exists [target].
  - destruct (Hpre o') as (Hok & [solved Hsolved] & [at_nav Hnav]); [by left|].
    cbn [app bounds_loop]. unfold epsilon_result in Hok, Hsolved.
    destruct (epsilon_problem problem const_bounds o') as [eps_problem target].
    rewrite bind_call, Hok. cbn [negb].
    unfold scalar_at in Hsolved, Hnav.
    destruct (getitem (optimal_objectives _) (symbol o')) as [found|]; [|done].
    cbn [rbind] in Hsolved. rewrite bind_lift_ok, Hsolved, bind_lift_ok.
    destruct (getitem nav (symbol o')) as [here|]; [|done].
    cbn [rbind] in Hnav. rewrite bind_lift_ok, Hnav, bind_lift_ok.
    edestruct IH as (targets & -> & Hlen); [intros o'' Ho''; apply Hpre; by right|].
    exists (target :: targets). cbn [emit heap trace length].
    rewrite <- app_assoc. split; [done|]. by rewrite Hlen.
Qed.

(** X6. [solve_reachable_bounds] is all or nothing: when the sub-solve of
    some objective reports no success, and the sub-solves of the objectives
    before it went through, the call raises [NautilusNavigatorError] naming
    that objective and carrying the solver's message as it is; the solvers
    of the objectives after it are never called, and no bounds are
    returned. *)
Theorem solve_reachable_bounds_first_failure
    problem navigation_point create_solver σ pre objective post const_bounds :
  objectives problem = pre ++ objective :: post →
  const_bounds_of (objectives problem) navigation_point ∅ = Ok const_bounds →
  (∀ o, o ∈ pre →
     success (epsilon_result problem const_bounds
                (solver_or_guess problem create_solver) o) = true
     ∧ (∃ v, scalar_at (optimal_objectives
                          (epsilon_result problem const_bounds
                             (solver_or_guess problem create_solver) o))
                       (symbol o) = Ok v)
     ∧ (∃ v, scalar_at navigation_point (symbol o) = Ok v)) →
  success (epsilon_result problem const_bounds
             (solver_or_guess problem create_solver) objective) = false →
  ∃ targets,
    solve_reachable_bounds problem navigation_point create_solver σ
    = (Raise (NautilusNavigatorError
                (EpsilonNotSuccessful (symbol objective)
                   (message (epsilon_result problem const_bounds
                               (solver_or_guess problem create_solver) objective)))),
       {| heap := heap σ; trace := trace σ ++ map Solve targets |})
    ∧ length targets = S (length pre).
Proof.
  intros Hobjs Hconst Hpre Hfails. unfold solve_reachable_bounds.
  rewrite Hconst, bind_lift_ok, Hobjs.
  by apply bounds_loop_first_failure.
Qed.

Lemma const_bounds_of_missing (pre post : list Objective) o (nav : dict) :
  defined_on pre nav →
  nav !! symbol o = None →
  ∀ acc, const_bounds_of (pre ++ o :: post) nav acc = Raise (KeyError (symbol o)).
Proof.
  intros Hpre Hnone.
  induction pre as [|o' pre IH]; intros acc; cbn [app const_bounds_of]; unfold getitem at 1.
  - by rewrite Hnone.
  - destruct (Hpre o') as (v & -> & Hv); [by left|]. cbn [rbind].
    assert (∃ b, (if maximize o' then negated v else Ok v) = Ok b) as [b ->].
    { destruct (maximize o'); [destruct v|]; cbn; eauto. done. }
    cbn [rbind]. apply IH. intros o'' Ho''. apply Hpre. by right.
Qed.

(** X7. The bounds handed to the epsilon-constraint problems are all in
    the orientation of minimisation: for a navigation point that holds a
    float for every objective of a problem with unique symbols, the mapping
    has exactly the objective symbols as keys and holds the value of the
    navigation point for a minimised objective and that value times -1 for
    a maximised one. When the navigation point lacks the symbol of an
    objective, and holds a value other than [None] for the objectives
    before it, [solve_reachable_bounds] raises [KeyError] for that symbol
    before any solver is called. *)
Theorem epsilon_bounds_are_oriented problem navigation_point :
  (NoDup (map symbol (objectives problem)) →
   numeric_on (objectives problem) navigation_point →
   ∃ const_bounds,
     const_bounds_of (objectives problem) navigation_point ∅ = Ok const_bounds
     ∧ (∀ key, is_Some (const_bounds !! key) ↔ key ∈ map symbol (objectives problem))
     ∧ ∀ objective x,
         objective ∈ objectives problem →
         navigation_point !! symbol objective = Some (VFloat x) →
         const_bounds !! symbol objective
         = Some (VFloat (if maximize objective then inject_Z (-1) * x else x)%Q))
  ∧ (∀ pre objective post create_solver σ,
       objectives problem = pre ++ objective :: post →
       defined_on pre navigation_point →
       navigation_point !! symbol objective = None →
       solve_reachable_bounds problem navigation_point create_solver σ
       = (Raise (KeyError (symbol objective)), σ)).
Proof.
  split.
  - intros Hnodup Hnum.
    destruct (const_bounds_of_values _ _ Hnodup Hnum ∅) as (cb & Hcb & Hin & Hout).
    exists cb. split; [done|]. split.
    + intros key. split.
      * intros Hsome. destruct (decide (key ∈ map symbol (objectives problem))); [done|].
        rewrite Hout, lookup_empty in Hsome by done. by destruct Hsome.
      * intros Hkey. apply list_elem_of_fmap in Hkey as (o & -> & Ho).
        rewrite (Hin _ Ho). eauto.
    + intros o x Ho Hx. rewrite (Hin _ Ho). unfold float_at. by rewrite Hx.
  - intros pre o post create_solver σ Hobjs Hpre Hnone. unfold solve_reachable_bounds.
    rewrite Hobjs. by rewrite const_bounds_of_missing.
Qed.

End BoundsFailure.

(** ** [solve_reachable_solution] *)

Section Projection.
Context `{Toolbox}.

Lemma comprehension_raise_inv {A B} (f : A → Result B) xs e :
  comprehension f xs = Raise e → ∃ x, x ∈ xs ∧ f x = Raise e.
Proof.
  induction xs as [|x xs IH]; intros Hrun; [done|]. cbn [comprehension] in Hrun.
  destruct (f x) as [y|e'] eqn:Hx.
  - cbn [rbind] in Hrun. destruct (comprehension f xs) as [ys|e'']; [done|].
    injection Hrun as ->. destruct IH as (x' & Hin & Hx'); [done|].
    exists x'. split; [by right|done].
  - injection Hrun as ->. exists x. split; [by left|done].
Qed.

Lemma constraint_expressions (objs : list Objective) (nav : dict) :
  defined_on objs nav →
  ∃ exprs,
    comprehension
      (fun obj =>
         let? v := getitem nav (symbol obj) in
         let? bound := signed v (maximize obj) in
         Ok (min_minus (symbol obj) bound))
      objs = Ok exprs.
Proof.
  induction objs as [|o objs IH]; intros Hdef; [by exists []|].
  destruct (Hdef o) as (v & Hv & Hnot); [by left|].
  destruct IH as [exprs Hexprs]; [intros o' Ho'; apply Hdef; by right|].
  cbn [comprehension]. unfold getitem at 1. rewrite Hv. cbn [rbind].
  destruct v as [|x|xs]; [done| |]; cbn [signed rbind]; rewrite Hexprs; eauto.
Qed.

(** On complete inputs the projection is one call of the solver built for
    the augmented problem, and its answer is returned as it is. *)
Lemma solve_reachable_solution_run problem reference previous create_solver :
  keyed_on (objectives problem) reference →
  defined_on (objectives problem) previous →
  ∃ augmented target,
    ∀ σ, solve_reachable_solution problem reference previous create_solver σ
         = (Ok (solver_or_guess problem create_solver augmented target),
            emit (Solve target) σ).
Proof.
  intros Hkeys Hdefined. unfold solve_reachable_solution, objective_dict_to_numpy_array.
  destruct (comprehension_getitem_total _ _ Hkeys) as [point ->].
  destruct (constraint_expressions _ _ Hdefined) as [exprs Hexprs].
  destruct (add_scalarization_function problem (create_asf problem point) "asf")
    as [problem_w_asf target] eqn:Hasf.
  eexists _, target. intros σ.
  rewrite bind_lift_ok, Hasf. cbv beta iota zeta. rewrite Hexprs, bind_lift_ok. reflexivity.
Qed.

(** X8. [solve_reachable_solution] hands back what the solver answers,
    success flag and message included: given a reference point with an
    entry for every objective and a previous navigation point with a value
    other than [None] for every objective, it returns after exactly one
    solver call, whatever the answer says. It raises only for incomplete
    mappings ([KeyError], [TypeError]), never [NautilusNavigatorError], and
    then no solver has been called. *)
Theorem solve_reachable_solution_returns_the_answer
    problem reference previous create_solver :
  (keyed_on (objectives problem) reference →
   defined_on (objectives problem) previous →
   ∃ augmented target,
     ∀ σ, solve_reachable_solution problem reference previous create_solver σ
          = (Ok (solver_or_guess problem create_solver augmented target),
             emit (Solve target) σ))
  ∧ (∀ σ e,
       (solve_reachable_solution problem reference previous create_solver σ).1 = Raise e →
       (solve_reachable_solution problem reference previous create_solver σ).2 = σ
       ∧ ((∃ key, e = KeyError key) ∨ e = TypeError)).
Proof.
  split; [apply solve_reachable_solution_run|].
  intros σ e. unfold solve_reachable_solution, objective_dict_to_numpy_array.
  destruct (comprehension _ (objectives problem)) as [point|e'] eqn:Hpoint.
  2:{ rewrite bind_lift_raise. cbn. intros [= ->]. split; [done|]. left.
      apply comprehension_raise_inv in Hpoint as (o & _ & Ho).
      unfold getitem in Ho. destruct (reference !! symbol o); [done|].
      injection Ho as <-. eauto. }
  rewrite bind_lift_ok.
  destruct (add_scalarization_function problem (create_asf problem point) "asf")
    as [problem_w_asf target].
  cbv beta iota zeta.
  match goal with
  | |- context [lift (comprehension ?f ?objs)] =>
      destruct (comprehension f objs) as [exprs|e'] eqn:Hexprs
  end.
  - rewrite bind_lift_ok. by cbn.
  - rewrite bind_lift_raise. cbn. intros [= ->]. split; [done|].
    apply comprehension_raise_inv in Hexprs as (o & _ & Ho).
    unfold getitem in Ho. destruct (previous !! symbol o) as [v|].
    + cbn [rbind] in Ho. destruct v; cbn in Ho; try done. injection Ho as <-. by right.
    + injection Ho as <-. eauto.
Qed.

Lemma solve_reachable_solution_ok_inv problem reference previous create_solver σ opt σ' :
  solve_reachable_solution problem reference previous create_solver σ = (Ok opt, σ') →
  ∃ target, σ' = emit (Solve target) σ.
Proof.
  unfold solve_reachable_solution. intros Hrun.
  destruct (objective_dict_to_numpy_array problem reference) as [point|]; [|done].
  rewrite bind_lift_ok in Hrun.
  destruct (add_scalarization_function problem (create_asf problem point) "asf")
    as [problem_w_asf target].
  cbv beta iota zeta in Hrun.
  match type of Hrun with
  | context [lift (comprehension ?f ?objs)] =>
      destruct (comprehension f objs) as [exprs|]; [|done]
  end.
  rewrite bind_lift_ok in Hrun. injection Hrun as _ <-. eauto.
Qed.

End Projection.

(** ** [navigator_step]: what it does to the store, and when it checks *)

Section StepEffects.
Context `{Toolbox}.
Context (problem : Problem) (create_solver : option CreateSolverType).

(** X9. A call of [navigator_step] on any store either returns the next
    free address, having added there exactly one response that carries the
    step number and the reference point it was given and a reachable
    solution, or raises a Python exception and leaves every object as it
    was. *)
Theorem navigator_step_creates_one_response
    (steps_remaining label : Z) (nav_point : dict)
    (given known : option dict) (σ : store) :
  match navigator_step problem steps_remaining label nav_point create_solver given known σ with
  | (Ok a, σ') =>
      a = length (heap σ)
      ∧ ∃ r, heap σ' = heap σ ++ [Response r]
             ∧ step_number r = label
             ∧ reference_point r = given
             ∧ is_Some (reachable_solution r)
  | (Raise e, σ') => heap σ' = heap σ ∧ e ≠ LoopBound
  end.
Proof.
  destruct (navigator_step_settles problem steps_remaining label nav_point create_solver
              given known) as [(r & targets & Hcreates)|(e & targets & Hquiet & He)].
  - rewrite Hcreates. split; [done|]. exists r. split; [done|].
    apply navigator_step_created in Hcreates as (Hn & Href & point & Hsol & _).
    rewrite Hsol. eauto.
  - by rewrite Hquiet.
Qed.

Lemma calculate_navigation_point_no_steps z f (r : Z) :
  (r ≤ 0)%Z →
  calculate_navigation_point problem z f r
  = Raise (NautilusNavigatorError (InvalidStepCount r)).
Proof.
  intros Hr. unfold calculate_navigation_point. by rewrite (proj2 (Z.leb_le r 0) Hr).
Qed.

(** X10. [navigator_step] checks the number of steps remaining only when it
    comes to the recurrence. With a cached reachable solution and a count
    that is not positive it raises at once, the store untouched; with a
    reference point (complete, as the previous navigation point) it raises
    the same error only after the projection has been solved. *)
Theorem navigator_step_checks_the_count_late
    (steps_remaining label : Z) (nav_point point : dict) (σ : store) :
  (steps_remaining ≤ 0)%Z →
  navigator_step problem steps_remaining label nav_point create_solver None (Some point) σ
  = (Raise (NautilusNavigatorError (InvalidStepCount steps_remaining)), σ)
  ∧ (keyed_on (objectives problem) point →
     defined_on (objectives problem) nav_point →
     ∃ target,
       navigator_step problem steps_remaining label nav_point create_solver
                      (Some point) None σ
       = (Raise (NautilusNavigatorError (InvalidStepCount steps_remaining)),
          emit (Solve target) σ)).
Proof.
  intros Hk. split.
  - unfold navigator_step. rewrite bind_ret.
    by rewrite calculate_navigation_point_no_steps.
  - intros Hkeys Hdefined.
    destruct (solve_reachable_solution_run problem point nav_point create_solver Hkeys Hdefined)
      as (augmented & target & Hrun).
    exists target. unfold navigator_step. rewrite bind_assoc.
    unfold bind at 1. rewrite Hrun, bind_ret.
    by rewrite calculate_navigation_point_no_steps.
Qed.

End StepEffects.

(** ** [navigator_all_steps]: edges, and how often it solves *)

Section AllStepsEffects.
Context `{Toolbox}.
Context (problem : Problem) (reference : dict) (create_solver : option CreateSolverType).

(** X11. On an empty history [navigator_all_steps] raises [IndexError]
    without calling a solver. With a number of steps that is not positive,
    on a history that has a last entry, it returns a new, empty list: no
    solver is called and no response is created. *)
Theorem navigator_all_steps_edges (k : Z) (prev : addr) (σ : store) :
  (heap σ !! prev = Some (ListOf []) →
   (navigator_all_steps problem k reference prev create_solver σ).1 = Raise IndexError
   ∧ solve_targets (trace (navigator_all_steps problem k reference prev create_solver σ).2)
     = solve_targets (trace σ))
  ∧ (∀ items latest r_latest,
       heap σ !! prev = Some (ListOf items) →
       last items = Some latest →
       heap σ !! latest = Some (Response r_latest) →
       (k ≤ 0)%Z →
       navigator_all_steps problem k reference prev create_solver σ
       = (Ok (length (heap σ)),
          {| heap := heap σ ++ [ListOf []];
             trace := trace σ ++ [New (length (heap σ)) (ListOf [])] |})).
Proof.
  split.
  - intros Hprev. apply lookup_lt_Some in Hprev as Hlt.
    assert (navigator_all_steps problem k reference prev create_solver σ
            = (Raise IndexError,
               {| heap := heap σ ++ [ListOf []];
                  trace := trace σ ++ [New (length (heap σ)) (ListOf [])] |})) as ->.
    { unfold navigator_all_steps. unfold bind at 1, new.
      unfold bind at 1, list_last. cbn [heap]. by rewrite lookup_app_l, Hprev by done. }
    cbn [fst snd trace]. split; [done|]. rewrite solve_targets_app. cbn. by rewrite app_nil_r.
  - intros items latest r_latest Hprev Hlast Hlatest Hk.
    apply lookup_lt_Some in Hprev as Hprev_lt. apply lookup_lt_Some in Hlatest as Hlatest_lt.
    unfold navigator_all_steps. unfold bind at 1, new.
    unfold bind at 1, list_last. cbn [heap]. rewrite lookup_app_l, Hprev, Hlast by done.
    unfold bind at 1, get_navigation_point, bind at 1, response_at. cbn [heap].
    rewrite lookup_app_l, Hlatest by done. unfold ret at 1.
    unfold bind at 1, list_last. cbn [heap]. rewrite lookup_app_l, Hprev, Hlast by done.
    unfold bind at 1, get_step_number, bind at 1, response_at. cbn [heap].
    rewrite lookup_app_l, Hlatest by done. unfold ret at 1.
    replace (Z.to_nat k) with 0%nat by lia. cbn [all_steps_loop].
    destruct (Z.ltb_spec 0 k) as [?|_]; [lia|]. done.
Qed.

Lemma navigator_step_ok_targets steps_remaining label nav_point given known σ a σ' :
  navigator_step problem steps_remaining label nav_point create_solver given known σ
  = (Ok a, σ') →
  ∃ targets,
    solve_targets (trace σ') = solve_targets (trace σ) ++ targets
    ∧ length targets
      = ((if given is Some _ then 1 else 0) + length (objectives problem))%nat.
Proof.
  intros Hrun. unfold navigator_step in Hrun.
  assert (∀ (point : dict) σ1,
            (let* new_nav_point :=
               lift (calculate_navigation_point problem nav_point point steps_remaining) in
             let* (lower_bounds, upper_bounds) :=
               solve_reachable_bounds problem new_nav_point create_solver in
             let* distance :=
               lift (calculate_distance_to_front problem new_nav_point point) in
             new (Response {|
               step_number := label;
               distance_to_front := distance;
               navigation_point := new_nav_point;
               reachable_solution := Some point;
               reference_point := given;
               reachable_bounds := bounds_dict lower_bounds upper_bounds |})) σ1
            = (Ok a, σ') →
            ∃ targets,
              solve_targets (trace σ') = solve_targets (trace σ1) ++ targets
              ∧ length targets = length (objectives problem)) as Htail.
  { intros point σ1 Htail.
    destruct (calculate_navigation_point problem nav_point point steps_remaining)
      as [new_nav|]; [|done].
    rewrite bind_lift_ok in Htail.
    apply bind_ok_inv in Htail as ([lower upper] & σ2 & Hbounds & Htail).
    apply solve_reachable_bounds_effects in Hbounds as (_ & (targets & Htrace & Hlen) & _).
    destruct (calculate_distance_to_front problem new_nav point) as [distance|]; [|done].
    rewrite bind_lift_ok in Htail. unfold new in Htail. injection Htail as _ <-.
    exists targets. cbn [trace]. rewrite Htrace, !solve_targets_app, solve_targets_solves.
    cbn. by rewrite app_nil_r. }
  destruct given as [given|], known as [known|]; try discriminate Hrun.
  - rewrite bind_assoc in Hrun.
    apply bind_ok_inv in Hrun as (opt & σ1 & Hsolution & Hrun).
    apply solve_reachable_solution_ok_inv in Hsolution as [target ->].
    rewrite bind_ret in Hrun. apply Htail in Hrun as (targets & Htrace & Hlen).
    exists (target :: targets). cbn [emit trace] in Htrace.
    rewrite Htrace, solve_targets_app, <- app_assoc. cbn. by rewrite Hlen.
  - rewrite bind_ret in Hrun. by apply Htail in Hrun.
Qed.

Lemma creates_step_targets steps_remaining label nav_point given known r targets :
  creates (navigator_step problem steps_remaining label nav_point create_solver given known)
          r targets →
  length targets = ((if given is Some _ then 1 else 0) + length (objectives problem))%nat.
Proof.
  intros Hcreates. pose proof (Hcreates {| heap := []; trace := [] |}) as Hrun.
  apply navigator_step_ok_targets in Hrun as (targets' & Htrace & <-).
  cbn [trace app] in Htrace.
  rewrite solve_targets_app, solve_targets_solves in Htrace. cbn in Htrace.
  rewrite app_nil_r in Htrace. by subst.
Qed.

(** One iteration, with the solver calls it adds to the trace. *)
Lemma iteration_run_targets
    (m : M addr) (k : option dict → dict → M unit) r targets responses σ acc :
  creates m r targets →
  heap σ !! responses = Some (ListOf acc) →
  ∃ σ3,
    (let* response := m in
     set_reference_point response (Some reference);;
     list_append responses response;;
     let* reachable_solution := get_reachable_solution response in
     let* nav_point := get_navigation_point response in
     k reachable_solution nav_point) σ
    = k (reachable_solution r) (navigation_point r) σ3
    ∧ heap σ3 !! responses = Some (ListOf (acc ++ [length (heap σ)]))
    ∧ solve_targets (trace σ3) = solve_targets (trace σ) ++ targets.
Proof.
  intros Hcreates Hlist.
  apply lookup_lt_Some in Hlist as Hlt.
  set (a := length (heap σ)).
  eexists. split; [|split].
  - unfold bind at 1. rewrite Hcreates. fold a.
    unfold bind at 1, set_reference_point. cbn [heap trace].
    rewrite list_lookup_middle by done.
    rewrite insert_app_r_alt, Nat.sub_diag by (subst a; lia). cbn [insert list_insert].
    unfold bind at 1, list_append. cbn [heap trace].
    rewrite lookup_app_l, Hlist by done.
    unfold bind at 1, get_reachable_solution, bind at 1, response_at. cbn [heap trace].
    rewrite list_lookup_insert_ne by (subst a; lia).
    rewrite list_lookup_middle by done. unfold ret at 1.
    unfold bind at 1, get_navigation_point, bind at 1, response_at. cbn [heap trace].
    rewrite list_lookup_insert_ne by (subst a; lia).
    rewrite list_lookup_middle by done. unfold ret at 1.
    reflexivity.
  - cbn [heap]. apply list_lookup_insert_eq. rewrite length_app. lia.
  - cbn [trace]. rewrite !solve_targets_app, solve_targets_solves. cbn.
    by rewrite !app_nil_r.
Qed.

Lemma all_steps_loop_targets :
  ∀ bound k n nav first sol responses σ acc σ',
    (Z.to_nat k ≤ bound)%nat →
    heap σ !! responses = Some (ListOf acc) →
    all_steps_loop bound problem reference create_solver responses k n nav first sol σ
    = (Ok (), σ') →
    length (solve_targets (trace σ'))
    = (length (solve_targets (trace σ))
       + (if first then (if (0 <? k)%Z then 1 else 0) else 0)
       + Z.to_nat k * length (objectives problem))%nat.
Proof.
  induction bound as [|bound IH]; intros k n nav first sol responses σ acc σ' Hbound Hlist Hrun.
  - cbn [all_steps_loop] in Hrun. destruct (Z.ltb_spec 0 k) as [?|_]; [lia|].
    injection Hrun as <-. replace (Z.to_nat k) with 0%nat by lia. destruct first; lia.
  - rewrite all_steps_loop_unfold in Hrun.
    destruct (Z.ltb_spec 0 k) as [Hpos|Hdone].
    2:{ injection Hrun as <-. replace (Z.to_nat k) with 0%nat by lia. destruct first; lia. }
    destruct (navigator_step_settles problem k n nav create_solver
                (if first then Some reference else None)
                (if first then None else sol))
      as [(r & targets & Hcreates)|(e & targets & Hfails & He)].
    + pose proof (creates_step_targets _ _ _ _ _ _ _ Hcreates) as Hlen.
      assert (creates (iteration_call problem reference create_solver k n nav first sol)
                      r targets) as Hcall.
      { unfold iteration_call. by destruct first. }
      destruct (iteration_run_targets _
                  (fun reachable_solution nav_point =>
                     all_steps_loop bound problem reference create_solver responses
                                    (k - 1) (n + 1) nav_point false reachable_solution)
                  r targets responses σ acc Hcall Hlist) as (σ3 & Heq & Hlist3 & Htrace3).
      rewrite Heq in Hrun.
      apply IH with (acc := acc ++ [length (heap σ)]) in Hrun; [|lia|done].
      rewrite Hrun, Htrace3, length_app, Hlen.
      replace (Z.to_nat k) with (S (Z.to_nat (k - 1))) by lia.
      destruct first; lia.
    + exfalso. unfold bind in Hrun at 1.
      replace (iteration_call problem reference create_solver k n nav first sol σ)
        with (navigator_step problem k n nav create_solver
                (if first then Some reference else None)
                (if first then None else sol) σ) in Hrun
        by (unfold iteration_call; by destruct first).
      by rewrite Hfails in Hrun.
Qed.

(** X12. A call of [navigator_all_steps] that returns [k > 0] responses
    has called a solver [1 + k * n] times for a problem of [n] objectives:
    once for the projection of the reference point, in the first step, and
    once per objective and step for the bounds; the later steps reuse the
    reachable solution of the first. *)
Theorem navigator_all_steps_solves_once_for_the_projection
    (k : Z) (prev : addr) (σ : store) items latest r_latest out σ' :
  heap σ !! prev = Some (ListOf items) →
  last items = Some latest →
  heap σ !! latest = Some (Response r_latest) →
  (0 < k)%Z →
  navigator_all_steps problem k reference prev create_solver σ = (Ok out, σ') →
  length (solve_targets (trace σ'))
  = (length (solve_targets (trace σ)) + 1
     + Z.to_nat k * length (objectives problem))%nat.
Proof.
  intros Hprev Hlast Hlatest Hk Hrun.
  apply lookup_lt_Some in Hprev as Hprev_lt. apply lookup_lt_Some in Hlatest as Hlatest_lt.
  unfold navigator_all_steps in Hrun. unfold bind at 1, new in Hrun.
  unfold bind at 1, list_last in Hrun. cbn [heap] in Hrun.
  rewrite lookup_app_l, Hprev, Hlast in Hrun by done.
  unfold bind at 1, get_navigation_point, bind at 1, response_at in Hrun. cbn [heap] in Hrun.
  rewrite lookup_app_l, Hlatest in Hrun by done. unfold ret at 1 in Hrun.
  unfold bind at 1, list_last in Hrun. cbn [heap] in Hrun.
  rewrite lookup_app_l, Hprev, Hlast in Hrun by done.
  unfold bind at 1, get_step_number, bind at 1, response_at in Hrun. cbn [heap] in Hrun.
  rewrite lookup_app_l, Hlatest in Hrun by done. unfold ret at 1 in Hrun.
  apply bind_ok_inv in Hrun as ([] & σ2 & Hloop & Hret). injection Hret as _ <-.
  apply all_steps_loop_targets with (acc := []) in Hloop; [|done|].
  - rewrite Hloop. cbn [trace]. rewrite solve_targets_app. cbn. rewrite app_nil_r.
    destruct (Z.ltb_spec 0 k); lia.
  - cbn [heap]. by rewrite list_lookup_middle.
Qed.

End AllStepsEffects.

(** ** Every response is anchored at its navigation point *)

Section Anchor.
Context `{Toolbox}.
Context (problem : Problem) (create_solver : option CreateSolverType).

Lemma solve_reachable_bounds_anchor nav σ lower upper σ' :
  NoDup (map symbol (objectives problem)) →
  solve_reachable_bounds problem nav create_solver σ = (Ok (lower, upper), σ') →
  ∀ objective, objective ∈ objectives problem →
    ∃ v, scalar_at nav (symbol objective) = Ok v
         ∧ (if maximize objective then lower else upper) !! symbol objective = Some v.
Proof.
  intros Hnodup Hrun o Ho. unfold solve_reachable_bounds in Hrun.
  destruct (const_bounds_of (objectives problem) nav ∅) as [const_bounds|]; [|done].
  rewrite bind_lift_ok in Hrun.
  apply bounds_loop_assignment in Hrun as [Hin _]; [|done].
  destruct (Hin o Ho) as (solved & at_nav & _ & _ & Hnav & Hlo & Hup).
  exists at_nav. split; [done|]. by destruct (maximize o).
Qed.

(** X13. With unique objective symbols, every response that
    [navigator_init] or [navigator_step] creates is anchored: its reachable
    bounds are those computed at its own navigation point, whose value at
    each objective is the upper bound of a minimised objective and the
    lower bound of a maximised one. The initial response is at the nadir
    point, with step number 0, distance 0 and neither a reference point nor
    a reachable solution. *)
Theorem created_responses_are_anchored :
  NoDup (map symbol (objectives problem)) →
  (∀ σ a σ',
     navigator_init problem create_solver σ = (Ok a, σ') →
     ∃ r, heap σ' = heap σ ++ [Response r]
          ∧ a = length (heap σ)
          ∧ anchored (objectives problem) r
          ∧ navigation_point r = get_nadir_dict problem
          ∧ step_number r = 0%Z
          ∧ (distance_to_front r == 0)%Q
          ∧ reference_point r = None
          ∧ reachable_solution r = None)
  ∧ (∀ steps_remaining label nav_point given known σ a σ',
       navigator_step problem steps_remaining label nav_point create_solver given known σ
       = (Ok a, σ') →
       ∃ r, heap σ' = heap σ ++ [Response r]
            ∧ a = length (heap σ)
            ∧ anchored (objectives problem) r).
Proof.
  intros Hnodup. split.
  - intros σ a σ' Hrun. unfold navigator_init in Hrun.
    apply bind_ok_inv in Hrun as ([lower upper] & σ1 & Hbounds & Hrun).
    pose proof (solve_reachable_bounds_effects _ _ _ _ _ _ _ Hbounds) as (Hheap & _).
    unfold new in Hrun. injection Hrun as <- <-. cbn [heap]. rewrite Hheap.
    eexists. split; [done|]. split; [done|]. split; [|done].
    exists lower, upper. split; [done|]. cbn [navigation_point].
    by apply (solve_reachable_bounds_anchor _ _ _ _ _ Hnodup Hbounds).
  - intros steps_remaining label nav_point given known σ a σ' Hrun.
    unfold navigator_step in Hrun.
    assert (∀ (point : dict) σ1,
              heap σ1 = heap σ →
              (let* new_nav_point :=
                 lift (calculate_navigation_point problem nav_point point steps_remaining) in
               let* (lower_bounds, upper_bounds) :=
                 solve_reachable_bounds problem new_nav_point create_solver in
               let* distance :=
                 lift (calculate_distance_to_front problem new_nav_point point) in
               new (Response {|
                 step_number := label;
                 distance_to_front := distance;
                 navigation_point := new_nav_point;
                 reachable_solution := Some point;
                 reference_point := given;
                 reachable_bounds := bounds_dict lower_bounds upper_bounds |})) σ1
              = (Ok a, σ') →
              ∃ r, heap σ' = heap σ ++ [Response r]
                   ∧ a = length (heap σ)
                   ∧ anchored (objectives problem) r) as Htail.
    { intros point σ1 Hsame Htail.
      destruct (calculate_navigation_point problem nav_point point steps_remaining)
        as [new_nav|]; [|done].
      rewrite bind_lift_ok in Htail.
      apply bind_ok_inv in Htail as ([lower upper] & σ2 & Hbounds & Htail).
      pose proof (solve_reachable_bounds_effects _ _ _ _ _ _ _ Hbounds) as (Hheap & _).
      destruct (calculate_distance_to_front problem new_nav point) as [distance|]; [|done].
      rewrite bind_lift_ok in Htail. unfold new in Htail. injection Htail as <- <-.
      cbn [heap]. rewrite Hheap, Hsame.
      eexists. split; [done|]. split; [done|].
      exists lower, upper. split; [done|]. cbn [navigation_point].
      by apply (solve_reachable_bounds_anchor _ _ _ _ _ Hnodup Hbounds). }
    destruct given as [given|], known as [known|]; try discriminate Hrun.
    + rewrite bind_assoc in Hrun.
      apply bind_ok_inv in Hrun as (opt & σ1 & Hsolution & Hrun).
      apply solve_reachable_solution_ok_inv in Hsolution as [target ->].
      rewrite bind_ret in Hrun. by apply Htail in Hrun.
    + rewrite bind_ret in Hrun. by apply Htail in Hrun.
Qed.

End Anchor.

(** * The theorems at work on concrete inputs *)

Ltac each_objective Ho :=
  repeat (apply elem_of_cons in Ho as [->|Ho]); [..|by apply elem_of_nil in Ho].




(** The branched history: index 3 for step 1, index 4 for step 2. *)
Lemma step_back_on_the_branched_history :
  (∃ (j : nat) r,
     step_back_index branched_history 1 = Ok (Z.of_nat j)
     ∧ branched_history !! j = Some r ∧ step_number r = 1%Z)
  ∧ step_back_index branched_history 1 = Ok 3%Z
  ∧ step_back_index branched_history 2 = Ok 4%Z.
Proof.
  split.
  - destruct (proj1 step_back_index_latest_wins branched_history 1%Z)
      as (j & r & Hrun & Hat & Hstep & _).
    { exists (entry 1). split; [|done]. right. by left. }
    by exists j, r.
  - by apply (proj2 step_back_index_latest_wins branched_history).
Defined.

(** The holed history: walking back from step 2 needs step 1. *)
Lemma current_path_of_the_holed_history :
  get_current_path holed_history = Raise IndexError.
Proof.
  apply (get_current_path_gap holed_history (entry 2) 1); [done|cbn; lia|].
  intros r Hr. unfold holed_history in Hr. cbn in Hr.
  repeat (apply elem_of_cons in Hr as [->|Hr]); [done..|by apply elem_of_nil in Hr].
Defined.

Lemma branched_history_chained : chained branched_history.
Proof.
  intros c r Hc Hpos.
  do 5 (destruct c as [|c];
        [injection Hc as <-; cbn in Hpos;
         first [ lia
               | exists 0%nat, (entry 0); split; [lia|by split]
               | exists 1%nat, (entry 1); split; [lia|by split] ]|]).
  done.
Defined.

(** The branched history is chained, and its current path is 0, 3, 4. *)
Lemma current_path_of_the_branched_history :
  (∃ p : list nat,
     get_current_path branched_history = Ok (Z.of_nat <$> p)
     ∧ walk branched_history 0 p ∧ length p = 3%nat)
  ∧ get_current_path branched_history = Ok [0; 3; 4]%Z.
Proof.
  split.
  - destruct (proj1 get_current_path_chained branched_history (entry 2))
      as (p & Hrun & Hwalk & _ & Hlen & _);
      [exact branched_history_chained|done|cbn; lia|].
    by exists p.
  - by apply (proj2 get_current_path_chained branched_history).
Defined.

(** The claim C3 as the specification states it fails twice. On the
    shuffled history every step number from 0 to 3 has an entry, yet the
    walk wraps around the front of the list and ends in a failed lookup. On
    the resumed history the walk returns 0, 1, 2, 4: for step 1 it takes
    index 1, the nearest entry before the one taken for step 2, although
    the last-appended entry of step 1 is at index 3. *)
Lemma current_path_is_not_latest_wins :
  ((∀ t, (0 ≤ t ≤ 3)%Z → ∃ r, r ∈ shuffled_history ∧ step_number r = t)
   ∧ get_current_path shuffled_history = Raise IndexError)
  ∧ (get_current_path resumed_history = Ok [0; 1; 2; 4]%Z
     ∧ step_back_index resumed_history 1 = Ok 3%Z).
Proof.
  split; [split|by split].
  - intros t Ht.
    assert (t = 0 ∨ t = 1 ∨ t = 2 ∨ t = 3)%Z as [-> | [-> | [-> | ->]]] by lia.
    + exists (entry 0). split; [|done]. do 3 right. by left.
    + exists (entry 1). split; [|done]. do 2 right. by left.
    + exists (entry 2). split; [|done]. by left.
    + exists (entry 3). split; [|done]. right. by left.
  - done.
Qed.

Lemma run_returned {A} (run : Result A * store) (a : A) :
  run.1 = Ok a → run = (Ok a, run.2).
Proof. destruct run as [r σ]. cbn. by intros ->. Defined.

(** Without a preference, and with two, the step raises and the store is
    untouched; with the wish alone it returns. *)
Lemma step_on_the_box_needs_one_preference :
  navigator_step box_problem 3 1 corner (Some (answering origin)) None None box_store
  = (Raise (NautilusNavigatorError NoPreferenceGiven), box_store)
  ∧ navigator_step box_problem 3 1 corner (Some (answering origin))
                   (Some wish) (Some origin) box_store
    = (Raise (NautilusNavigatorError BothPreferencesGiven), box_store)
  ∧ (navigator_step box_problem 3 1 corner (Some (answering origin))
                    (Some wish) None box_store).1 = Ok 2%nat.
Proof.
  split; [|split].
  - by apply (proj1 (navigator_step_needs_exactly_one box_problem 3 1 corner
                       (Some (answering origin)) None None box_store)).
  - by apply (proj1 (proj2 (navigator_step_needs_exactly_one box_problem 3 1 corner
                              (Some (answering origin)) (Some wish) (Some origin) box_store))).
  - assert ((navigator_step box_problem 3 1 corner (Some (answering origin))
                            (Some wish) None box_store).1 = Ok 2%nat) as Hrun
      by (vm_compute; reflexivity).
    destruct (proj2 (proj2 (navigator_step_needs_exactly_one box_problem 3 1 corner
                              (Some (answering origin)) (Some wish) None box_store))
                2%nat _ (run_returned _ _ Hrun)) as [_|[Hnone _]]; [exact Hrun|done].
Defined.

Lemma lone_problem_symbols : NoDup (map symbol (objectives lone_problem)).
Proof. compute_done. Defined.

Lemma box_problem_symbols : NoDup (map symbol (objectives box_problem)).
Proof. compute_done. Defined.

(** The lone problem has no nadir value: the distance is refused. *)
Lemma distance_on_the_lone_problem :
  calculate_distance_to_front lone_problem lone_start lone_optimum
  = Raise (NautilusNavigatorError NadirUndefined).
Proof.
  apply (undefined_nadir_is_reported_by_distance
           lone_problem (minimised "f_1" None) lone_start lone_optimum);
    [exact lone_problem_symbols|by left|done].
Defined.

(** The claim C7 as the specification states it fails for the bounds: the
    lone problem has no nadir value, and [solve_reachable_bounds] returns
    bounds for it all the same. *)
Lemma bounds_do_not_look_at_the_nadir :
  nadir (minimised "f_1" None) = None
  ∧ minimised "f_1" None ∈ objectives lone_problem
  ∧ (solve_reachable_bounds lone_problem lone_start (Some (answering lone_optimum))
                            empty_store).1
    = Ok (lone_optimum, lone_start).
Proof. split; [done|]. split; [by left|]. vm_compute. reflexivity. Qed.



(** Three steps on the box problem, from a history that holds the initial
    response: three new responses, numbered 1, 2, 3, and the caller's list
    still holds its single entry. *)
Lemma three_steps_on_the_box :
  ∃ out σ' news,
    navigator_all_steps box_problem 3 wish 1 (Some (answering origin)) box_store = (Ok out, σ')
    ∧ responses_at σ' out = Some news
    ∧ length news = 3%nat
    ∧ map step_number news = [1; 2; 3]%Z
    ∧ heap σ' !! 1%nat = Some (ListOf [0%nat]).
Proof.
  assert ((navigator_all_steps box_problem 3 wish 1 (Some (answering origin)) box_store).1
          = Ok 2%nat) as Hrun by (vm_compute; reflexivity).
  apply run_returned in Hrun.
  destruct (navigator_all_steps_returns_k_steps box_problem wish (Some (answering origin))
              3 1%nat box_store [0%nat] 0%nat box_start) as [_ Hreturns];
    [done|done|done|lia|].
  destruct (Hreturns _ _ Hrun)
    as (first & rest & point & Hat & Hlen & Hsteps & _ & _ & _ & _ & Hprev & _).
  eexists _, _, (first :: rest). split; [exact Hrun|]. by split.
Defined.

(** Two steps on the box problem: both responses come from [navigator_step]
    and the store of the caller is as it was. *)
Lemma two_steps_on_the_box :
  ∃ out σ' news,
    navigator_all_steps box_problem 2 wish 1 (Some (answering origin)) box_store = (Ok out, σ')
    ∧ responses_at σ' out = Some news
    ∧ (∀ r', r' ∈ news →
         ∃ created, r' = with_reference_point (Some wish) created)
    ∧ heap σ' !! 0%nat = Some (Response box_start)
    ∧ heap σ' !! 1%nat = Some (ListOf [0%nat]).
Proof.
  assert ((navigator_all_steps box_problem 2 wish 1 (Some (answering origin)) box_store).1
          = Ok 2%nat) as Hrun by (vm_compute; reflexivity).
  apply run_returned in Hrun.
  destruct (navigator_all_steps_overwrites_reference_point
              box_problem wish (Some (answering origin))
              2 1%nat box_store [0%nat] 0%nat box_start _ _ eq_refl eq_refl eq_refl Hrun)
    as (news & Hat & Hcreated & Hframe).
  eexists _, _, news. split; [exact Hrun|]. split; [exact Hat|]. split.
  - intros r' Hr'. apply list_elem_of_lookup in Hr' as [i Hi].
    destruct (Hcreated i r' Hi) as (created & _ & _ & _ & _ & _ & _ & _ & -> & _).
    by exists created.
  - split; apply Hframe; cbn; lia.
Defined.

(** The claim C9 as the specification states it fails: in a call for two
    steps the second response is created with no reference point and is
    assigned one afterwards, so the object in the final store is not the
    object that was created. *)
Lemma second_response_is_reassigned :
  (navigator_all_steps box_problem 2 wish 1 (Some (answering origin)) box_store).1
  = Ok 2%nat
  ∧ ¬ kept_as_created
        (navigator_all_steps box_problem 2 wish 1 (Some (answering origin)) box_store).2.
Proof.
  split; [vm_compute; reflexivity|].
  unfold kept_as_created. intros Hkept. vm_compute in Hkept.
  repeat match type of Hkept with
         | Forall _ (_ :: _) => apply Forall_cons in Hkept as [? Hkept]
         end.
  repeat match goal with
         | E : Some (Response _) = Some (Response _) |- _ =>
             injection E as E; try discriminate E
         | E : True |- _ => clear E
         end.
Qed.

(** The two callers, one with a history of one entry and one with a history
    of two, get the same three responses. *)
Lemma two_callers_one_last_entry :
  match navigator_all_steps box_problem 3 wish 1 (Some (answering origin)) box_store,
        navigator_all_steps box_problem 3 wish 1 (Some (answering origin)) long_store with
  | (Ok out1, σ1'), (Ok out2, σ2') =>
      ∃ news, responses_at σ1' out1 = Some news ∧ responses_at σ2' out2 = Some news
  | (Raise e1, _), (Raise e2, _) => e1 = e2 ∧ e1 ≠ LoopBound
  | _, _ => False
  end.
Proof.
  by apply (navigator_all_steps_depends_on_last_only
              box_problem wish (Some (answering origin)) 3 box_start
              1%nat box_store [0%nat] 0%nat
              1%nat long_store [0; 2]%nat 2%nat).
Defined.

(** * The further properties at work on concrete inputs *)

(** The half point lacks [f_2], as previous navigation point and as
    reachable vector. *)
Lemma recurrence_on_the_half_point :
  calculate_navigation_point box_problem half_point corner 2 = Raise (KeyError "f_2")
  ∧ calculate_navigation_point box_problem corner half_point 2 = Raise (KeyError "f_2").
Proof.
  destruct (calculate_navigation_point_missing_key box_problem half_point corner 2
              [minimised "f_1" (Some 3%Q)] (minimised "f_2" (Some 4%Q)) [])
    as [Hprevious _]; [lia|done|].
  destruct (calculate_navigation_point_missing_key box_problem corner half_point 2
              [minimised "f_1" (Some 3%Q)] (minimised "f_2" (Some 4%Q)) [])
    as [_ Hreachable]; [lia|done|].
  split.
  - apply Hprevious; [|done]. intros o Ho. each_objective Ho. by eexists.
  - apply Hreachable; [| |done]; intros o Ho; each_objective Ho; by eexists.
Defined.


(** The bounds of the box problem: two solver calls, keys [f_1], [f_2]. *)
Lemma bounds_of_the_box_effects :
  ∃ σ' targets,
    solve_reachable_bounds box_problem corner (Some (answering origin)) box_store
    = (Ok (origin, corner), σ')
    ∧ heap σ' = heap box_store
    ∧ trace σ' = trace box_store ++ map Solve targets
    ∧ length targets = 2%nat
    ∧ (is_Some (origin !! "f_2") ↔ "f_2" ∈ map symbol (objectives box_problem)).
Proof.
  assert ((solve_reachable_bounds box_problem corner (Some (answering origin)) box_store).1
          = Ok (origin, corner)) as Hrun by (vm_compute; reflexivity).
  apply run_returned in Hrun.
  destruct (solve_reachable_bounds_keys_and_calls _ _ _ _ _ _ _ Hrun)
    as (Hheap & (targets & Htrace & Hlen) & Hlower & _).
  eexists _, targets. split; [exact Hrun|]. split; [done|]. split; [done|].
  split; [done|]. apply Hlower.
Defined.

(** On the tagged box problem a solver that gives up on [f_2] makes the
    bounds fail with its message, after two solver calls. *)
Lemma bounds_fail_on_the_second_objective :
  ∃ targets,
    solve_reachable_bounds (H := tagged_toolbox) tagged_box corner
                           (Some (giving_up_on "f_2_min")) empty_store
    = (Raise (NautilusNavigatorError (EpsilonNotSuccessful "f_2" "infeasible")),
       {| heap := []; trace := map Solve targets |})
    ∧ length targets = 2%nat.
Proof.
  apply (solve_reachable_bounds_first_failure (H := tagged_toolbox) tagged_box corner
           (Some (giving_up_on "f_2_min")) empty_store
           [minimised "f_1" (Some 3%Q)] (minimised "f_2" (Some 4%Q)) [] corner);
    [done|by vm_compute| |done].
  intros o Ho. each_objective Ho. split; [done|]. split; by eexists.
Defined.

(** The mixed problem: the bound of the maximised objective is negated;
    the half point makes the bounds of the box problem fail on [f_2]. *)
Lemma epsilon_bounds_of_the_mixed_problem :
  (∃ const_bounds,
     const_bounds_of (objectives mixed_problem) mixed_point ∅ = Ok const_bounds
     ∧ const_bounds !! "cost" = Some (VFloat 9)
     ∧ const_bounds !! "gain" = Some (VFloat (inject_Z (-1) * 1)))
  ∧ solve_reachable_bounds box_problem half_point (Some (answering origin)) box_store
    = (Raise (KeyError "f_2"), box_store).
Proof.
  split.
  - destruct (proj1 (epsilon_bounds_are_oriented mixed_problem mixed_point))
      as (const_bounds & Hrun & _ & Hvalues).
    { compute_done. }
    { intros o Ho. each_objective Ho; by eexists. }
    exists const_bounds. split; [done|]. split.
    + by apply (Hvalues (minimised "cost" (Some 9%Q)) 9%Q); [left|].
    + by apply (Hvalues {| symbol := "gain"; name := "gain"; unit_name := "-";
                           maximize := true; ideal := Some 5%Q; nadir := Some 1%Q |} 1%Q);
        [right; left|].
  - apply (proj2 (epsilon_bounds_are_oriented box_problem half_point)
             [minimised "f_1" (Some 3%Q)] (minimised "f_2" (Some 4%Q)) []); [done| |done].
    intros o Ho. each_objective Ho. by eexists.
Defined.

Lemma keyed_on_box_wish : keyed_on (objectives box_problem) wish.
Proof. intros o Ho. each_objective Ho; by eexists. Defined.

Lemma defined_on_box_corner : defined_on (objectives box_problem) corner.
Proof. intros o Ho. each_objective Ho; by eexists. Defined.

(** The projection on the box problem with a solver that has no answer:
    the failure is returned, not raised. *)
Lemma projection_returns_a_failure :
  ∃ target,
    solve_reachable_solution box_problem wish corner None box_store
    = (Ok no_answer, emit (Solve target) box_store)
    ∧ success no_answer = false.
Proof.
  destruct (proj1 (solve_reachable_solution_returns_the_answer box_problem wish corner None)
              keyed_on_box_wish defined_on_box_corner) as (augmented & target & Hrun).
  exists target. split; [|done]. by rewrite Hrun.
Defined.

(** No step left on the box problem: with a cached solution the step raises
    at once, with the wish after one solver call. *)
Lemma step_without_steps_left :
  navigator_step box_problem 0 1 corner (Some (answering origin)) None (Some origin) box_store
  = (Raise (NautilusNavigatorError (InvalidStepCount 0)), box_store)
  ∧ ∃ target,
      navigator_step box_problem 0 1 corner (Some (answering origin)) (Some wish) None box_store
      = (Raise (NautilusNavigatorError (InvalidStepCount 0)), emit (Solve target) box_store).
Proof.
  destruct (navigator_step_checks_the_count_late box_problem (Some (answering origin))
              0 1 corner origin box_store) as [Hcached _]; [lia|].
  destruct (navigator_step_checks_the_count_late box_problem (Some (answering origin))
              0 1 corner wish box_store) as [_ Hwish]; [lia|].
  split; [exact Hcached|]. apply Hwish; [exact keyed_on_box_wish|exact defined_on_box_corner].
Defined.

(** An empty history, and a call for no steps. *)
Lemma all_steps_at_the_edges :
  (navigator_all_steps box_problem 3 wish 0 (Some (answering origin)) bare_store).1
  = Raise IndexError
  ∧ navigator_all_steps box_problem 0 wish 1 (Some (answering origin)) box_store
    = (Ok 2%nat,
       {| heap := heap box_store ++ [ListOf []];
          trace := trace box_store ++ [New 2%nat (ListOf [])] |}).
Proof.
  split.
  - by apply (proj1 (navigator_all_steps_edges box_problem wish (Some (answering origin))
                       3 0%nat bare_store)).
  - by apply (proj2 (navigator_all_steps_edges box_problem wish (Some (answering origin))
                       0 1%nat box_store) [0%nat] 0%nat box_start).
Defined.

(** Three steps on the box problem, two objectives: seven solver calls. *)
Lemma three_steps_solve_seven_times :
  length (solve_targets
            (trace (navigator_all_steps box_problem 3 wish 1
                      (Some (answering origin)) box_store).2)) = 7%nat.
Proof.
  assert ((navigator_all_steps box_problem 3 wish 1 (Some (answering origin)) box_store).1
          = Ok 2%nat) as Hrun by (vm_compute; reflexivity).
  apply run_returned in Hrun.
  by rewrite (navigator_all_steps_solves_once_for_the_projection
                box_problem wish (Some (answering origin))
                3 1%nat box_store [0%nat] 0%nat box_start _ _
                eq_refl eq_refl eq_refl ltac:(lia) Hrun).
Defined.

(** The initial response of the box problem is anchored at the nadir
    point, the corner of the box. *)
Lemma initial_response_of_the_box :
  ∃ r,
    heap (navigator_init box_problem (Some (answering origin)) empty_store).2 = [Response r]
    ∧ anchored (objectives box_problem) r
    ∧ navigation_point r = corner.
Proof.
  assert ((navigator_init box_problem (Some (answering origin)) empty_store).1 = Ok 0%nat)
    as Hrun by (vm_compute; reflexivity).
  apply run_returned in Hrun.
  destruct (proj1 (created_responses_are_anchored box_problem (Some (answering origin))
                     box_problem_symbols) _ _ _ Hrun)
    as (r & Hheap & _ & Hanchored & Hnav & _).
  exists r. split; [exact Hheap|]. split; [done|]. rewrite Hnav. by vm_compute.
Defined.
